(** * f5-cloud-libs: the cohort supervisor (scripts/azure/runScripts.js),
    the signal store (lib/ipc) and the onboarding worker (scripts/onboard.js)

  A shallow embedding of the process-coordination code and the
  properties its specification states about it.

  Layout: part I holds the definitions (one module per source file),
  part II the lemmas and theorems. *)

From Stdlib Require Import ZArith Ascii String List Lia Bool.
From stdpp Require Import base decidable list strings gmap sets.

Local Open Scope Z_scope.

(* ===================================================================== *)
(** * Part I: definitions                                                 *)
(* ===================================================================== *)

(** ** JavaScript strings and arrays

  A JavaScript string is a sequence of code units.  The embedding uses
  Rocq strings, one [ascii] per code unit, so it covers the strings whose
  code units are below 256; the string functions are written on the list
  of code units and wrapped. *)
Module JS.

Definition chars (s : string) : list ascii := list_ascii_of_string s.
Definition str (l : list ascii) : string := string_of_list_ascii l.

(** The class [\s] of regular expressions, which is also what
    [String.prototype.trim] strips: TAB, LF, VT, FF, CR, SPACE and
    NO-BREAK SPACE are its members below 256. *)
Definition is_ws (c : ascii) : bool :=
  match nat_of_ascii c with
  | 9%nat | 10%nat | 11%nat | 12%nat | 13%nat | 32%nat | 160%nat => true
  | _ => false
  end.

Fixpoint drop_ws (l : list ascii) : list ascii :=
  match l with
  | [] => []
  | c :: l' => if is_ws c then drop_ws l' else l
  end.

(** [s.trim()] *)
Definition trim_chars (l : list ascii) : list ascii :=
  rev (drop_ws (rev (drop_ws l))).
Definition trim (s : string) : string := str (trim_chars (chars s)).

(** [s.split(/\s+/)]: the string is scanned from the left; at a run of
    white space the token collected so far is emitted and the whole run
    is skipped; what remains at the end is the last token.  [in_sep]
    tells that the scan is inside a run, [tok] is the token so far. *)
Fixpoint split_go (in_sep : bool) (tok : list ascii) (l : list ascii)
  : list (list ascii) :=
  match l with
  | [] => [tok]
  | c :: l' =>
      if is_ws c
      then (if in_sep then split_go true tok l'
            else tok :: split_go true [] l')
      else split_go false (tok ++ [c]) l'
  end.
Definition split_chars (l : list ascii) : list (list ascii) :=
  split_go false [] l.
Definition split_ws (s : string) : list string :=
  map str (split_chars (chars s)).

(** Is [needle] a prefix of [l]? *)
Fixpoint starts_with (needle l : list ascii) : bool :=
  match needle, l with
  | [], _ => true
  | _ :: _, [] => false
  | a :: needle', b :: l' =>
      if ascii_dec a b then starts_with needle' l' else false
  end.

(** First position [k + i] such that [needle] occurs in [l] at offset [i]. *)
Fixpoint find_from (needle l : list ascii) (k : nat) : option nat :=
  if starts_with needle l then Some k
  else match l with
       | [] => None
       | _ :: l' => find_from needle l' (S k)
       end.

(** The clamping of a position argument into [0 .. len]. *)
Definition clamp (len : nat) (i : Z) : nat :=
  Z.to_nat (Z.min (Z.max i 0) (Z.of_nat len)).

(** [s.indexOf(needle, position)], [-1] when there is no occurrence. *)
Definition indexOf_chars (l needle : list ascii) (position : Z) : Z :=
  let p := clamp (length l) position in
  match find_from needle (drop p l) p with
  | Some k => Z.of_nat k
  | None => -1
  end.
Definition indexOf (s needle : string) (position : Z) : Z :=
  indexOf_chars (chars s) (chars needle) position.

(** [s.substring(start, end)]: both ends are clamped and swapped when
    out of order. *)
Definition substring_chars (l : list ascii) (start end_ : Z) : list ascii :=
  let a := clamp (length l) start in
  let b := clamp (length l) end_ in
  take (Nat.max a b - Nat.min a b) (drop (Nat.min a b) l).
Definition substring (s : string) (start end_ : Z) : string :=
  str (substring_chars (chars s) start end_).
(** [s.substring(start)] *)
Definition substring_from (s : string) (start : Z) : string :=
  substring s start (Z.of_nat (String.length s)).

(** [s.length] *)
Definition length (s : string) : Z := Z.of_nat (String.length s).

(** A string is falsy exactly when it is empty. *)
Definition truthy (s : string) : bool :=
  match s with EmptyString => false | _ => true end.

(** [a.indexOf(x, fromIndex)] on an array of strings, for
    [fromIndex >= 0]; [-1] when [x] does not occur from there on. *)
Fixpoint array_find (x : string) (a : list string) (k : nat) : option nat :=
  match a with
  | [] => None
  | y :: a' => if String.eqb x y then Some k else array_find x a' (S k)
  end.
Definition array_indexOf (a : list string) (x : string) (fromIndex : Z) : Z :=
  let p := Z.to_nat fromIndex in
  match array_find x (drop p a) p with
  | Some k => Z.of_nat k
  | None => -1
  end.

(** [a[i]]: [None] stands for [undefined]. *)
Definition array_get (a : list string) (i : Z) : option string :=
  if i <? 0 then None else a !! Z.to_nat i.

(** [needle] occurs in [s]. *)
Definition occurs (n l : list ascii) : Prop := exists a b, l = a ++ n ++ b.
Definition contains (needle s : string) : Prop :=
  exists a b, s = a +:+ needle +:+ b.

(** [s] has a white-space character. *)
Definition has_ws (s : string) : bool := existsb is_ws (chars s).

End JS.

(** ** The cohort supervisor: scripts/azure/runScripts.js *)
Module Supervisor.

(** [var MAX_TRIES = 3;] *)
Definition MAX_TRIES : nat := 3.

(** *** Observable output *)

Inductive Level := Error | Info | Verbose | Debug | Console.

(** The arguments of a logger call. *)
Inductive LogArg :=
| LStr (s : string)
| LNum (n : Z)
| LArr (a : list string).

Record LogCall := { l_level : Level; l_args : list LogArg }.

(** *** Child processes

    A [Child] is one [ChildProcess] object returned by
    [childProcess.fork], together with what the closure of its ['exit']
    handler captured: [module], [arrayArgs], [stringArgs] and [tryNum].
    [c_args] is the argument list that was handed to [fork]. *)
Record Child := {
  c_pid : nat;
  c_module : string;
  c_arrayArgs : option (list string);
  c_stringArgs : option string;
  c_tryNum : nat;
  c_args : list string
}.

(** The three [process.exit()] call sites of the file: the [--help]
    branch of [run], the drain branch of the ['exit'] handler and the
    REBOOT continuation. *)
Inductive ExitSite := AtHelp | AtDrain | AtReboot.

(** *** The state of the supervising process

    - [waiting] is the module-level counter;
    - [children] are the forked children whose ['exit'] event has not
      been delivered yet (the part of the process table the supervisor
      listens to);
    - [forks] is the history of [childProcess.fork] calls and [log] the
      history of logger calls, most recent first;
    - [exits] lists the [process.exit()] calls made;
    - [crashed] tells that an exception escaped [run];
    - [rebootSubs] counts the [ipc.once('REBOOT')] calls made; the wait
    is pending for as long as the process runs, since its continuation
    ends the process. *)
Record Sup := mkSup {
  waiting : Z;
  children : list Child;
  next_pid : nat;
  forks : list Child;
  log : list LogCall;
  exits : list ExitSite;
  crashed : bool;
  rebootSubs : nat
}.

Definition init : Sup :=
  {| waiting := 0; children := []; next_pid := 0; forks := []; log := [];
     exits := []; crashed := false; rebootSubs := 0 |}.

(** The process runs until [process.exit()] or an uncaught exception. *)
Definition alive (st : Sup) : bool :=
  match exits st with [] => negb (crashed st) | _ => false end.

Definition logger (lv : Level) (args : list LogArg) (st : Sup) : Sup :=
  mkSup (waiting st) (children st) (next_pid st) (forks st)
        ({| l_level := lv; l_args := args |} :: log st)
        (exits st) (crashed st) (rebootSubs st).

Definition set_waiting (w : Z) (st : Sup) : Sup :=
  mkSup w (children st) (next_pid st) (forks st) (log st)
        (exits st) (crashed st) (rebootSubs st).

(** [childProcess.fork(module, args, ...)]: a new child, with the next
    free identity. *)
Definition fork (c : Child) (st : Sup) : Sup :=
  mkSup (waiting st) (c :: children st) (S (next_pid st)) (c :: forks st)
        (log st) (exits st) (crashed st) (rebootSubs st).

(** The child emitted ['exit']: it is no longer listened to. *)
Definition reap (pid : nat) (st : Sup) : Sup :=
  mkSup (waiting st)
        (filter (fun c => c_pid c ≠ pid) (children st))
        (next_pid st) (forks st) (log st) (exits st) (crashed st)
        (rebootSubs st).

(** [process.exit()], always called without an argument in this file. *)
Definition process_exit (site : ExitSite) (st : Sup) : Sup :=
  mkSup (waiting st) (children st) (next_pid st) (forks st) (log st)
        (site :: exits st) (crashed st) (rebootSubs st).

(** With no argument and [process.exitCode] never assigned, Node ends
    the process with its success status. *)
Definition exit_status (code : option Z) : Z :=
  match code with Some c => c | None => 0 end.
Definition exit_argument (site : ExitSite) : option Z := None.

Definition uncaught (st : Sup) : Sup :=
  mkSup (waiting st) (children st) (next_pid st) (forks st) (log st)
        (exits st) true (rebootSubs st).

Definition subscribe_reboot (st : Sup) : Sup :=
  mkSup (waiting st) (children st) (next_pid st) (forks st) (log st)
        (exits st) (crashed st) (S (rebootSubs st)).

(** *** [spawnScript] (lines 28-76)

    [tryNum = None] is the call without a fourth argument. *)
Definition spawn_args (arrayArgs : option (list string))
           (stringArgs : option string) : list string :=
  let args := match arrayArgs with Some a => a | None => [] end in
  match stringArgs with
  | Some s => if JS.truthy s then args ++ JS.split_ws (JS.trim s) else args
  | None => args
  end.

Definition spawnScript (module : string) (arrayArgs : option (list string))
           (stringArgs : option string) (tryNum : option nat) (st : Sup)
  : Sup :=
  let tryNum := match tryNum with Some t => t | None => 1%nat end in
  let args := spawn_args arrayArgs stringArgs in
  let st := logger Debug [LStr "Spawning child process"; LStr module;
                          LArr args] st in
  let cp := {| c_pid := next_pid st; c_module := module;
               c_arrayArgs := arrayArgs; c_stringArgs := stringArgs;
               c_tryNum := tryNum; c_args := args |} in
  let st := fork cp st in
  set_waiting (waiting st + 1) st.

(** [code !== null && code !== 0 && tryNum < MAX_TRIES] *)
Definition retries (code : option Z) (tryNum : nat) : bool :=
  match code with
  | None => false
  | Some c => negb (c =? 0) && (tryNum <? MAX_TRIES)%nat
  end.

Definition show_code (code : option Z) : LogArg :=
  match code with Some c => LNum c | None => LStr "null" end.
Definition show_signal (signal : option string) : LogArg :=
  match signal with Some s => LStr s | None => LStr "null" end.

(** The ['exit'] handler of child [c] (lines 59-75). *)
Definition on_exit (c : Child) (code : option Z) (signal : option string)
           (st : Sup) : Sup :=
  let st := logger Verbose [LStr (c_module c); LStr "exitted with code:";
                            show_code code; LStr "/ signal:";
                            show_signal signal] st in
  let st :=
    if retries code (c_tryNum c)
    then spawnScript (c_module c) (c_arrayArgs c) (c_stringArgs c)
                     (Some (S (c_tryNum c)))
                     (logger Info [LStr "Bad exit code for";
                                   LStr (c_module c); LStr "restrying."] st)
    else st in
  let st := set_waiting (waiting st - 1) st in
  if waiting st =? 0
  then process_exit AtDrain
         (logger Info [LStr "All children have exitted. Exitting."] st)
  else st.

(** The ['error'] handler (lines 55-57). *)
Definition on_error (c : Child) (error : string) (st : Sup) : Sup :=
  logger Error [LNum (Z.of_nat (c_pid c)); LStr "got error:"; LStr error] st.

(** The continuation of [ipc.once('REBOOT')] (lines 235-238). *)
Definition on_reboot (st : Sup) : Sup :=
  process_exit AtReboot (logger Info [LStr "REBOOT signalled. Exitting."] st).

(** *** The event loop

    What the supervisor reacts to once [run] has returned: a child
    exits, a child reports an error, the REBOOT wait resolves.  [ipc] is
    not among the sources: the resolution of [ipc.once('REBOOT')] is an
    event of the environment. *)
Inductive Event :=
| ChildExit (pid : nat) (code : option Z) (signal : option string)
| ChildError (pid : nat) (error : string)
| RebootObserved.

Definition child_of (pid : nat) (st : Sup) : option Child :=
  List.find (fun c => Nat.eqb (c_pid c) pid) (children st).

(** An event is delivered only to a running process, only from a child
    that has not exited yet, and only to a pending wait. *)
Definition enabled (e : Event) (st : Sup) : bool :=
  alive st &&
  match e with
  | ChildExit pid _ _ => bool_decide (is_Some (child_of pid st))
  | ChildError pid _ => bool_decide (is_Some (child_of pid st))
  | RebootObserved => (0 <? rebootSubs st)%nat
  end.

Definition handle (e : Event) (st : Sup) : Sup :=
  if negb (alive st) then st else
  match e with
  | ChildExit pid code signal =>
      match child_of pid st with
      | Some c => on_exit c code signal (reap pid st)
      | None => st
      end
  | ChildError pid error =>
      match child_of pid st with
      | Some c => on_error c error st
      | None => st
      end
  | RebootObserved =>
      if (0 <? rebootSubs st)%nat then on_reboot st else st
  end.

Definition run_events (tr : list Event) (st : Sup) : Sup :=
  fold_left (fun s e => handle e s) tr st.

(** *** [run] (lines 85-246)

    Lines 100-168 prepare the host (the mysql start delay, unpacking the
    libraries, [npm install], loading [ipc] and the logger): shell
    commands and file operations, taken here as one step that completes
    or throws.  The progress messages written with [console.log] are not
    recorded, the message of the [catch] clause is. *)
Inductive Setup := SetupOk | SetupThrows (err : string).

(** How the [try] block ended.  [Diverged] is the loop bound of the model
    running out, which [script_loop_completes] excludes. *)
Inductive Completion := Normal | Threw (err : string) | Diverged.

Definition show_undefined (v : option string) : LogArg :=
  match v with Some s => LStr s | None => LStr "undefined" end.

(** The body of the [--script] loop that builds [args] from [scriptArgs]
    (lines 195-224). *)
Definition script_args (scriptArgs : string) : list string :=
  let clArgIndex := JS.indexOf scriptArgs "--cl-args" 0 in
  if negb (clArgIndex =? -1) then
    let clArgStart := JS.indexOf scriptArgs "'" clArgIndex in
    let clArgEnd := JS.indexOf scriptArgs "'" (clArgStart + 1) in
    ["--cl-args"; JS.substring scriptArgs (clArgStart + 1) clArgEnd]
    ++ (if clArgIndex >? 0
        then JS.split_ws (JS.trim (JS.substring scriptArgs 0 clArgIndex))
        else [])
    ++ (if clArgEnd <? JS.length scriptArgs - 1
        then JS.split_ws (JS.trim (JS.substring_from scriptArgs (clArgEnd + 1)))
        else [])
  else JS.split_ws scriptArgs.

(** The [while (argIndex !== -1)] loop (lines 194-230).  [argv[argIndex + 1]]
    is [undefined] when [--script] is the last argument, and
    [scriptArgs.indexOf] then throws a [TypeError]. *)
Fixpoint script_loop (fuel : nat) (argv : list string) (argIndex : Z)
         (st : Sup) : Sup * Completion :=
  if argIndex =? -1 then (st, Normal) else
  match fuel with
  | O => (st, Diverged)
  | S fuel' =>
      match JS.array_get argv (argIndex + 1) with
      | None => (st, Threw "TypeError: Cannot read property 'indexOf' of undefined")
      | Some scriptArgs =>
          let args := script_args scriptArgs in
          let st := logger Debug [LStr "script args"; LArr args] st in
          let st := spawnScript "runScript.js" (Some args) None None st in
          let argIndex := JS.array_indexOf argv "--script" (argIndex + 1) in
          let st := logger Debug [LStr "next script arg index"; LNum argIndex] st in
          script_loop fuel' argv argIndex st
      end
  end.

(** Lines 174-180. *)
Definition run_onboard (argv : list string) (st : Sup) : Sup :=
  let argIndex := JS.array_indexOf argv "--onboard" 0 in
  let st := logger Debug [LStr "onboard arg index"; LNum argIndex] st in
  if negb (argIndex =? -1) then
    let scriptArgs := JS.array_get argv (argIndex + 1) in
    let st := logger Debug [LStr "onboard args"; show_undefined scriptArgs] st in
    spawnScript "onboard.js" None scriptArgs None st
  else st.

(** Lines 182-188. *)
Definition run_cluster (argv : list string) (st : Sup) : Sup :=
  let argIndex := JS.array_indexOf argv "--cluster" 0 in
  let st := logger Debug [LStr "cluster arg index"; LNum argIndex] st in
  if negb (argIndex =? -1) then
    let scriptArgs := JS.array_get argv (argIndex + 1) in
    let st := logger Debug [LStr "cluster args"; show_undefined scriptArgs] st in
    spawnScript "cluster.js" None scriptArgs None st
  else st.

(** Lines 190-230. *)
Definition run_scripts (argv : list string) (st : Sup) : Sup * Completion :=
  let argIndex := JS.array_indexOf argv "--script" 0 in
  let st := logger Debug [LStr "script arg index"; LNum argIndex] st in
  script_loop (List.length argv) argv argIndex st.

(** [run(argv)], in a fresh process.  When the set-up throws, [logger] is
    still undefined at line 245, whose [TypeError] escapes [run]. *)
Definition run (env : Setup) (argv : list string) : Sup :=
  if negb (JS.array_indexOf argv "--help" 0 =? -1)
  then process_exit AtHelp init
  else
    match env with
    | SetupThrows err =>
        uncaught (logger Console [LStr "Error running scripts: "; LStr err] init)
    | SetupOk =>
        let st := logger Info [LStr "Running scripts."] init in
        let st := logger Debug [LStr "raw args"; LArr argv] st in
        let st := run_onboard argv st in
        let st := run_cluster argv st in
        match run_scripts argv st with
        | (st, Normal) =>
            let st := subscribe_reboot st in
            logger Debug [LStr "Done spawning scripts."] st
        | (st, Threw err) =>
            let st := logger Console [LStr "Error running scripts: "; LStr err] st in
            logger Debug [LStr "Done spawning scripts."] st
        | (st, Diverged) => st
        end
    end.

(** *** Following one worker through its attempts

    The child forked while an event was handled, if any. *)
Definition respawned (st st' : Sup) : option Child :=
  if (next_pid st <? next_pid st')%nat then head (forks st') else None.

(** What became of a worker: its current attempt [pid] is still running
    and is attempt number [attempts]; or its last attempt exited with
    [code] and was not retried, [attempts] attempts were made, and the
    counter went from [before] to [after] in that last handler. *)
Inductive Fate :=
| Pending (pid : nat) (attempts : nat)
| Resolved (attempts : nat) (code : option Z) (before after : Z).

(** [follow pid n tr st]: the worker's attempt number [n] is child [pid]
    in [st]; the events [tr] are delivered. *)
Fixpoint follow (pid : nat) (n : nat) (tr : list Event) (st : Sup) : Fate :=
  match tr with
  | [] => Pending pid n
  | e :: tr' =>
      let st' := handle e st in
      match e with
      | ChildExit p code _ =>
          if enabled e st && (p =? pid)%nat
          then match respawned st st' with
               | Some c' => follow (c_pid c') (S n) tr' st'
               | None => Resolved n code (waiting st) (waiting st')
               end
          else follow pid n tr' st'
      | _ => follow pid n tr' st'
      end
  end.

(** *** The argument list for a [--script] argument string

    The argument list a worker is to receive for the string [s], told
    from the shape of [s]: without
    [--cl-args] in it, the string split at its runs of white space; with
    [--cl-args] followed by a value between single quotes, the token
    [--cl-args] and the value as one argument, whatever it holds, then
    the tokens found before [--cl-args] and those found after the closing
    quote. *)
Definition side_tokens (part : string) : list string :=
  if JS.truthy part then JS.split_ws (JS.trim part) else [].


(** The state of the supervisor after [run(argv)] and the events [tr]. *)
Definition reach (env : Setup) (argv : list string) (tr : list Event) : Sup :=
  run_events tr (run env argv).

(** *** The invariant of the supervisor

    Every child listened to was forked by [spawnScript]: its argument
    list is the one [spawnScript] computes and its attempt number lies
    between 1 and [MAX_TRIES]. *)
Definition well_formed (c : Child) : Prop :=
  c_args c = spawn_args (c_arrayArgs c) (c_stringArgs c) /\
  (1 <= c_tryNum c <= MAX_TRIES)%nat.

Record Inv (st : Sup) : Prop := {
  inv_count : waiting st = Z.of_nat (List.length (children st));
  inv_fresh : Forall (fun c => (c_pid c < next_pid st)%nat) (children st);
  inv_nodup : NoDup (map c_pid (children st));
  inv_wf : Forall well_formed (children st);
  inv_exits : (List.length (exits st) <= 1)%nat;
  inv_drain : In AtDrain (exits st) -> waiting st = 0;
  inv_subs : (rebootSubs st <= 1)%nat
}.

(** The supervisor while [run] is spawning: running, and not yet
    subscribed to REBOOT. *)
Definition Spawning (st : Sup) : Prop :=
  Inv st /\ exits st = [] /\ crashed st = false /\ rebootSubs st = 0%nat.

End Supervisor.

(** ** The signal store: lib/ipc.js

    lib/ipc.js is not among the sources; test/lib/ipcTests.js exercises
    its functions [send], [once] and [clearSignals], which the
    specification calls [raise], [awaitOnce] and [clearAll].  The module
    below is written from sections 3, 4.1 and 7 of the specification. *)
Module Ipc.

(** The file operations of the store. *)
Inductive Op := OpExists | OpMkdir | OpCreate | OpReaddir | OpUnlink.

Inductive Result (A : Type) :=
| Ok (a : A)
| IOError (op : Op).
Arguments Ok {A} a.
Arguments IOError {A} op.

#[global] Instance result_bind : MBind Result := fun A B k r =>
  match r with
  | Ok a => k a
  | IOError op => IOError op
  end.

(** Modelled from the spec: the store of lib/ipc.js, "a flat directory of
    markers": [None] while the directory does not exist, otherwise the set
    of markers in it. *)
Definition Store := option (gset string).

Definition markers_of (s : Store) : gset string :=
  match s with Some m => m | None => ∅ end.

Inductive WaitState := Waiting | Fulfilled | Rejected (op : Op).

(** Modelled from the spec: one call of [awaitOnce] of lib/ipc.js: the
    future it returned, and how many times its continuation has run. *)
Record Waiter := {
  w_name : string;
  w_state : WaitState;
  w_fired : nat
}.

(** The store and the waits registered on it, by any process. *)
Record World := { store : Store; waiters : list Waiter }.

Inductive Event :=
| EvRaise (name : string)
| EvAwait (name : string)
| EvPoll (i : nat)
| EvClear.

Section Faults.

(** Modelled from the spec: the file system under lib/ipc.js.
    [fails op] says that it refuses [op], for a reason other than "already
    exists" or "already absent". *)
Variable fails : Op -> bool.

Definition attempt {A} (op : Op) (a : A) : Result A :=
  if fails op then IOError op else Ok a.

(** Modelled from the spec: the lazy creation of the store directory in
    lib/ipc.js, "created lazily on first use by either operation". *)
Definition ensure_dir (s : Store) : Result (gset string) :=
  present ← attempt OpExists (bool_decide (is_Some s));
  if (present : bool) then Ok (markers_of s) else attempt OpMkdir ∅.

(** Modelled from the spec: [testSynchronous(name)] of lib/ipc.js, "a
    non-blocking existence check". *)
Definition testSynchronous (name : string) (s : Store) : Result bool :=
  attempt OpExists (bool_decide (name ∈ markers_of s)).

(** Modelled from the spec: [raise(name)] of lib/ipc.js ([send] in the
    tests): "creates the store directory if absent, then creates a marker
    for name if absent"; a failure "propagates synchronously to the
    caller". *)
Definition raise (name : string) (s : Store) : Result Store :=
  m ← ensure_dir s;
  present ← testSynchronous name (Some m);
  if (present : bool) then Ok (Some m)
  else attempt OpCreate (Some ({[name]} ∪ m)).

(** Modelled from the spec: [clearAll()] of lib/ipc.js ([clearSignals] in
    the tests): "removes every signal currently recorded, and fails with
    an I/O error if enumeration or removal fails"; a directory that does
    not exist has nothing to remove. *)
Definition unlink (name : string) (m : gset string) : Result (gset string) :=
  attempt OpUnlink (m ∖ {[name]}).

Definition clearAll (s : Store) : Result Store :=
  names ← attempt OpReaddir (elements (markers_of s));
  m ← fold_left (fun acc name => m ← acc; unlink name m) names
                (Ok (markers_of s));
  Ok (match s with Some _ => Some m | None => None end).

(** Modelled from the spec: [awaitOnce(name)] of lib/ipc.js ([once] in
    the tests): the future "resolves exactly once, the first time name is
    observed as raised, including immediately if it is already raised at
    call time", it "fails with an I/O error if the existence check itself
    fails", and it polls otherwise. *)
Definition settle (name : string) (r : Result bool) (fired : nat) : Waiter :=
  match r with
  | Ok true => {| w_name := name; w_state := Fulfilled; w_fired := S fired |}
  | Ok false => {| w_name := name; w_state := Waiting; w_fired := fired |}
  | IOError op => {| w_name := name; w_state := Rejected op; w_fired := fired |}
  end.

Definition awaitOnce (name : string) (w : World) : World :=
  match ensure_dir (store w) with
  | IOError op =>
      {| store := store w;
         waiters := waiters w ++ [settle name (IOError op) 0] |}
  | Ok m =>
      {| store := Some m;
         waiters := waiters w ++ [settle name (testSynchronous name (Some m)) 0] |}
  end.

(** Modelled from the spec: one tick of the poll timer that lib/ipc.js
    keeps for waiter [i]; a settled future has no timer any more. *)
Definition poll_waiter (s : Store) (wt : Waiter) : Waiter :=
  match w_state wt with
  | Waiting => settle (w_name wt) (testSynchronous (w_name wt) s) (w_fired wt)
  | _ => wt
  end.

Definition poll (i : nat) (w : World) : World :=
  {| store := store w;
     waiters := alter (poll_waiter (store w)) i (waiters w) |}.

(** A failed [raise] or [clearAll] throws to its caller and leaves the
    store as it was. *)
Definition apply (e : Event) (w : World) : World :=
  match e with
  | EvRaise name =>
      match raise name (store w) with
      | Ok s => {| store := s; waiters := waiters w |}
      | IOError _ => w
      end
  | EvAwait name => awaitOnce name w
  | EvPoll i => poll i w
  | EvClear =>
      match clearAll (store w) with
      | Ok s => {| store := s; waiters := waiters w |}
      | IOError _ => w
      end
  end.

Definition run_world (tr : list Event) (w : World) : World :=
  fold_left (fun w e => apply e w) tr w.

End Faults.

(** A file system on which every operation succeeds. *)
Definition healthy : Op -> bool := fun _ => false.

Definition is_clear (e : Event) : bool :=
  match e with EvClear => true | _ => false end.

(** How many times the continuation of waiter [i] has run. *)
Definition fired (i : nat) (w : World) : nat :=
  match waiters w !! i with Some wt => w_fired wt | None => 0%nat end.

Definition state_of (i : nat) (w : World) : option WaitState :=
  w_state <$> waiters w !! i.

(** Waiter [i] waits for [name] and its continuation has not run, or it
    is fulfilled and its continuation has run once. *)
Definition unfired (name : string) (i : nat) (w : World) : Prop :=
  waiters w !! i = Some {| w_name := name; w_state := Waiting; w_fired := 0 |}.
Definition fired_once (name : string) (i : nat) (w : World) : Prop :=
  waiters w !! i = Some {| w_name := name; w_state := Fulfilled; w_fired := 1 |}.

End Ipc.

(** ** The onboarding worker: scripts/onboard.js

    The source is the second listing of src/test/lib/ipcTests.js, whose
    line numbers are used below.  Embedded are the parts of [run] that
    raise signals and end the process: the checks of the options, the two
    waits registered at the end of the [try] block, and the [catch] and
    [done] handlers that close the chain of device-configuration steps.
    The chain itself (lines 611-1157) talks to the device and is taken as
    one step with an outcome.  The collaborators [ipc], [util] and the
    logger are not among the sources: their calls are recorded as
    [Action]s. *)
Module Onboard.

(** Modelled from the spec: the registry of signal names, lib/signals,
    is not among the sources; its three names used here are taken as
    given. *)
Record Signals := {
  CLOUD_LIBS_ERROR : string;
  ONBOARD_RUNNING : string;
  ONBOARD_DONE : string
}.

(** The parsed command line, as far as it is used here; [None] is
    [undefined]. *)
Record Options := {
  host : option string;
  user : option string;
  password : option string;
  passwordUrl : option string;
  forceReboot : bool;
  reboot : bool;
  background : bool;
  signal : option string
}.

(** The calls made to the collaborators, most recent first. *)
Inductive Action :=
| Send (name : string)
| Once (name : string)
| LogError (message : string)
| LogAndExit (message : string) (level : option string) (code : option Z)
| RunInBackgroundAndExit
| Reboot (signalOnly : bool)
| DeleteUser
| DeleteArgs
| Callback.

Inductive Phase := NotStarted | Running | Succeeded | Failed.

Record Worker := mkWorker {
  actions : list Action;
  rebooting : bool;
  exiting : bool;
  workflow : Phase
}.

Definition init : Worker :=
  {| actions := []; rebooting := false; exiting := false;
     workflow := NotStarted |}.

Definition act (a : Action) (st : Worker) : Worker :=
  mkWorker (a :: actions st) (rebooting st) (exiting st) (workflow st).
Definition set_rebooting (st : Worker) : Worker :=
  mkWorker (actions st) true (exiting st) (workflow st).
Definition set_exiting (st : Worker) : Worker :=
  mkWorker (actions st) (rebooting st) true (workflow st).
Definition set_workflow (p : Phase) (st : Worker) : Worker :=
  mkWorker (actions st) (rebooting st) (exiting st) p.

(** Truthiness of an optional string. *)
Definition given (o : option string) : bool :=
  match o with Some s => JS.truthy s | None => false end.

Definition is_exit (a : Action) : bool :=
  match a with LogAndExit _ _ _ | RunInBackgroundAndExit => true | _ => false end.

(** [util.logAndExit] and [util.runInBackgroundAndExit] (lib/util, not
    among the sources) log and end the process; the code that follows
    such a call still runs, as the [exiting] flag of the listing shows.
    [finished] tells that the worker has asked for its process to end. *)
Definition finished (st : Worker) : bool := existsb is_exit (actions st).

(** How the chain of steps ended before its [catch]: every step was
    fulfilled and [bigIp.rebootRequired()] answered [rebootRequired], or a
    step was rejected, before or after the step that sends
    [ONBOARD_RUNNING] ([started]). *)
Inductive Rejection :=
| NoReason
| ActiveError (message : string)
| Failure (message : option string).

Inductive Outcome :=
| Fulfilled (rebootRequired : bool)
| Rejected (started : bool) (err : Rejection).

(** Where a call inside the [try] block of [run] threw, if one did:
    while the command line was parsed, or after the checks of the
    options (loading the cloud provider). *)
Inductive Throw := NoThrow | ThrowsParsing | ThrowsAfterChecks.

Inductive Event :=
| ErrorSignalled
| RebootSignalled
| Settled (o : Outcome).

Section Worker.

Variable signals : Signals.
Variable options : Options.
(** Was [run] given a callback? *)
Variable cb : bool.

(** [options.signal || signals.ONBOARD_DONE] *)
Definition done_signal : string :=
  match signal options with
  | Some s => if JS.truthy s then s else ONBOARD_DONE signals
  | None => ONBOARD_DONE signals
  end.

(** The three failing checks share their shape (lines 550-577). *)
Definition reject_options (error : string) (st : Worker) : Worker :=
  act (LogAndExit error (Some "error") (Some 1))
      (act (LogError error) (act (Send (CLOUD_LIBS_ERROR signals)) st)).

Definition check_options (st : Worker) : Worker :=
  let st := if negb (given (host options))
            then reject_options "host is a required command line option." st
            else st in
  let st := if forceReboot options && negb (reboot options)
            then reject_options
                   "Option --force-reboot and --no-reboot cannot be specified simultaneously." st
            else st in
  let st := if given (user options)
               && negb (given (password options) || given (passwordUrl options))
            then reject_options
                   "If specifying --user, --password or --password-url is required." st
            else st in
  if background options then act RunInBackgroundAndExit st else st.

(** The synchronous part of [run]; what is thrown inside the [try]
    block is absorbed by the [catch] at the end of [run], which calls the
    callback. *)
Definition run (throws : Throw) : Worker :=
  match throws with
  | ThrowsParsing => if cb then act Callback init else init
  | ThrowsAfterChecks =>
      let st := check_options init in
      if cb then act Callback st else st
  | NoThrow =>
      let st := check_options init in
      let st := set_workflow Running st in
      let st := act (Once (CLOUD_LIBS_ERROR signals)) st in
      act (Once "REBOOT") st
  end.

(** A fulfilled chain: [ONBOARD_RUNNING] was sent on the way (line 634 of
    the listing), and lines 1128-1150 end it. *)
Definition on_fulfilled (rebootRequired : bool) (st : Worker) : Worker :=
  let st := act (Send (ONBOARD_RUNNING signals)) st in
  let st := set_workflow Succeeded st in
  let st := if rebootRequired then set_rebooting st else st in
  let st := if forceReboot options then set_rebooting st else st in
  if rebooting st then act (Reboot (negb (reboot options))) st else st.

Definition show_message (m : option string) : string :=
  match m with Some s => s | None => "undefined" end.

(** The [catch] handler (lines 1158-1183). *)
Definition on_rejected (started : bool) (err : Rejection) (st : Worker)
  : Worker :=
  let st := if started then act (Send (ONBOARD_RUNNING signals)) st else st in
  let st := set_workflow Failed st in
  match err with
  | ActiveError _ =>
      act (Reboot (negb (reboot options))) (set_rebooting st)
  | _ =>
      let message := match err with
                     | NoReason => "unknown reason"
                     | ActiveError m => m
                     | Failure m => show_message m
                     end in
      let st := act (Send (CLOUD_LIBS_ERROR signals)) st in
      let error := String.append "Onboard failed: " message in
      let st := act (LogError error) st in
      let st := act (LogAndExit error (Some "error") (Some 1)) st in
      set_exiting st
  end.

(** The [done] handler (lines 1184-1213). *)
Definition on_done (st : Worker) : Worker :=
  let st := if negb (given (user options)) then act DeleteUser st else st in
  let st := if (negb (rebooting st) || negb (reboot options)) && negb (exiting st)
            then act (Send done_signal) st else st in
  let st := if cb then act Callback st else st in
  if negb (rebooting st) then
    let st := act DeleteArgs st in
    if negb (exiting st) then act (LogAndExit "Onboard finished." None None) st
    else st
  else if negb (reboot options) then
    if negb (exiting st)
    then act (LogAndExit "Onboard finished. Reboot required but not rebooting."
                         None None) st
    else st
  else act (LogAndExit "Onboard finished. Reboot required." None None) st.

(** The continuation of [ipc.once(signals.CLOUD_LIBS_ERROR)]
    (lines 1216-1220). *)
Definition on_error_signal (st : Worker) : Worker :=
  let st := act (Send done_signal) st in
  act (LogAndExit "ERROR signaled from other script. Exiting" None None) st.

(** The continuation of [ipc.once('REBOOT')] (lines 1225-1230). *)
Definition on_reboot_signal (st : Worker) : Worker :=
  if negb (rebooting st) then act (LogAndExit "REBOOT signaled. Exiting." None None) st
  else st.

Definition waits_for (name : string) (st : Worker) : bool :=
  existsb (fun a => match a with Once n => String.eqb n name | _ => false end)
          (actions st).

(** Events reach a worker that has not asked to exit; a wait resolves
    only if it was registered, the chain settles only if it was started. *)
Definition handle (e : Event) (st : Worker) : Worker :=
  if finished st then st else
  match e with
  | ErrorSignalled =>
      if waits_for (CLOUD_LIBS_ERROR signals) st then on_error_signal st else st
  | RebootSignalled =>
      if waits_for "REBOOT" st then on_reboot_signal st else st
  | Settled o =>
      match workflow st with
      | Running =>
          on_done (match o with
                   | Fulfilled r => on_fulfilled r st
                   | Rejected started err => on_rejected started err st
                   end)
      | _ => st
      end
  end.

Definition run_events (tr : list Event) (st : Worker) : Worker :=
  fold_left (fun s e => handle e s) tr st.

End Worker.

End Onboard.

(** ** More of JavaScript's strings: [split] on a string, [startsWith],
       two regular expressions *)
Module JSText.

(** [s.split(sep)] for a non-empty string [sep]: the occurrences of [sep]
    are looked for from the left and do not overlap.  [skip] counts the
    characters of the occurrence just found that are still to be passed,
    [tok] is the piece collected so far. *)
Fixpoint split_on_go (sep : list ascii) (skip : nat) (tok : list ascii)
         (l : list ascii) : list (list ascii) :=
  match l with
  | [] => [tok]
  | c :: l' =>
      match skip with
      | S k => split_on_go sep k tok l'
      | O =>
          if JS.starts_with sep l
          then tok :: split_on_go sep (List.length sep - 1) [] l'
          else split_on_go sep 0 (tok ++ [c]) l'
      end
  end.
Definition split_on (s sep : string) : list string :=
  map JS.str (split_on_go (JS.chars sep) 0 [] (JS.chars s)).

(** The last character of [sep] occurs nowhere else in [sep]. *)
Definition clean_chars (sep : list ascii) : Prop :=
  forall c, last sep = Some c -> ~ In c (take (List.length sep - 1) sep).

(** [s.startsWith(prefix)] *)
Definition startsWith (s prefix : string) : bool :=
  JS.starts_with (JS.chars prefix) (JS.chars s).

(** The class [[a-z0-9]]. *)
Definition is_lower_alnum (c : ascii) : bool :=
  let n := nat_of_ascii c in
  ((97 <=? n) && (n <=? 122))%nat || ((48 <=? n) && (n <=? 57))%nat.

(** The longest run of characters of a class at the head of [l] is
    passed: what a greedy [[...]*] consumes. *)
Fixpoint skip_while (cls : ascii -> bool) (l : list ascii) : list ascii :=
  match l with
  | [] => []
  | c :: l' => if cls c then skip_while cls l' else l
  end.

(** [/https:\/\/[a-z0-9]+\.blob\.core\.windows\.net/] matched at the head
    of [l].  After [https://] the class must match once; the greedy run
    that follows never has to give characters back, since the next
    character of the pattern, a dot, is outside the class. *)
Definition azure_at (l : list ascii) : bool :=
  JS.starts_with (JS.chars "https://") l &&
  match drop 8 l with
  | c :: rest =>
      is_lower_alnum c &&
      JS.starts_with (JS.chars ".blob.core.windows.net")
                     (skip_while is_lower_alnum rest)
  | [] => false
  end.

(** The expression has no anchor: it is tried at every position. *)
Fixpoint azure_search (l : list ascii) : bool :=
  azure_at l || match l with [] => false | _ :: l' => azure_search l' end.

(** The strings the expression matches somewhere, said without a
    matcher: [https://], one or more characters of the class, the host
    suffix, anywhere in [s]. *)
Definition azure_matches (s : string) : Prop :=
  exists pre run post,
    s = pre +:+ "https://" +:+ run +:+ ".blob.core.windows.net" +:+ post /\
    run <> "" /\ forallb is_lower_alnum (JS.chars run) = true.

(** [/password:([^,])+/] matched at the head of [l]: the word, then at
    least one character that is not a comma. *)
Definition not_comma (c : ascii) : bool :=
  if ascii_dec c ","%char then false else true.

Definition password_at (l : list ascii) : bool :=
  JS.starts_with (JS.chars "password:") l &&
  match drop 9 l with
  | c :: _ => not_comma c
  | [] => false
  end.

(** [s.replace(/password:([^,])+/, '*******')]: the leftmost match, taken
    as long as it can be, is replaced; without a match the string is
    returned as it is. *)
Fixpoint replace_password_chars (l : list ascii) : list ascii :=
  if password_at l
  then JS.chars "*******" ++ skip_while not_comma (drop 9 l)
  else match l with
       | [] => []
       | c :: l' => c :: replace_password_chars l'
       end.
Definition replace_password (s : string) : string :=
  JS.str (replace_password_chars (JS.chars s)).

End JSText.

(** ** The cloud provider factory: lib/cloudProviderFactory.js
       (src/unnamed/part_000) *)
Module CloudProviderFactory.

(** [matchOptions], of which only [storageUri] is read. *)
Record MatchOptions := { storageUri : option string }.

(** [matchProvider(opts)] (lines 57-74); [None] is [null]. *)
Definition matchProvider (opts : option MatchOptions) : option string :=
  match opts with
  | Some o =>
      match storageUri o with
      | Some uri =>
          if JS.truthy uri then
            if JSText.startsWith uri "arn" then Some "aws"
            else if JSText.azure_search (JS.chars uri) then Some "azure"
            else if JSText.startsWith uri "gs://" then Some "gce"
            else None
          else None
      | None => None
      end
  | None => None
  end.

Inductive Error :=
| Unavailable                      (* 'Unavailable cloud provider' *)
| Unsupported                      (* 'Unsupported cloud provider' *)
| RequireFailed (path : string).   (* what [require] threw *)

Section Factory.

(** The provider classes and the options handed to their constructor. *)
Variables Impl Options : Type.

Inductive Result :=
| Thrown (e : Error)
| Created (impl : Impl) (options : Options).

(** The module loader: [None] when [require(path)] throws; otherwise what
    the factory reads from the module, the module itself for
    [./genericNodeProvider] and its [provider] property for the others,
    [Some None] when that is not there. *)
Variable require : string -> option (option Impl).

(** Truthiness of [name]. *)
Definition named (name : option string) : bool :=
  match name with Some n => JS.truthy n | None => false end.

(** [name || matchedProvider], as the template literal prints it. *)
Definition name_or (name matchedProvider : option string) : string :=
  match name, matchedProvider with
  | Some n, _ => if JS.truthy n then n
                 else match matchedProvider with Some p => p | None => "null" end
  | None, Some p => p
  | None, None => "null"
  end.

(** [getCloudProvider(name, options, matchOptions)] (lines 33-54). *)
Definition getCloudProvider (name : option string) (options : Options)
           (matchOptions : option MatchOptions) : Result :=
  let matchedProvider := matchProvider matchOptions in
  if negb (named name) && negb (bool_decide (is_Some matchedProvider))
  then Thrown Unavailable
  else
    let path :=
      if bool_decide (name = Some "generic") then "./genericNodeProvider"
      else "../../f5-cloud-libs-" +:+ name_or name matchedProvider in
    match require path with
    | None => Thrown (RequireFailed path)
    | Some None => Thrown Unsupported
    | Some (Some ProviderImplementation) => Created ProviderImplementation options
    end.

End Factory.

End CloudProviderFactory.

(** ** The onboarding worker, continued: the command line of
       scripts/onboard.js *)
Module OnboardCli.

(** *** [--set-root-password] (lines 298-305 and 807-816 of the listing)

    [rootPasswords] is an object used as a map; a key can hold
    [undefined], which is [Some None] here. *)
Definition parseRootPasswords (passwordsValue : string)
           (rootPasswords : gmap string (option string))
  : gmap string (option string) :=
  let set := JSText.split_on passwordsValue ",new:" in
  if (List.length set =? 2)%nat then
    let old := match set !! 0%nat with
               | Some s0 => JSText.split_on s0 "old:" !! 1%nat
               | None => None
               end in
    <["new" := set !! 1%nat]> (<["old" := old]> rootPasswords)
  else rootPasswords.

(** What the step of the chain that sets the root password does. *)
Inductive RootPasswordStep :=
| NoRootPassword
| RejectMissing          (* 'Old or new password missing for root user.' *)
| SetRootPassword (new old : string).   (* bigIp.onboard.password('root', new, old) *)

(** Truthiness of a property that may be absent or [undefined]. *)
Definition property (m : gmap string (option string)) (key : string)
  : option string :=
  match m !! key with
  | Some (Some s) => if JS.truthy s then Some s else None
  | _ => None
  end.

Definition root_password_step (rootPasswords : gmap string (option string))
  : RootPasswordStep :=
  if (0 <? size rootPasswords)%nat then
    match property rootPasswords "old", property rootPasswords "new" with
    | Some old, Some new => SetRootPassword new old
    | _, _ => RejectMissing
    end
  else NoRootPassword.

(** *** The logged command line (lines 538-548 of the listing) *)

Definition KEYS_TO_MASK : list string :=
  ["-p"; "--password"; "--set-password"; "--set-root-password";
   "--big-iq-password"].

(** [KEYS_TO_MASK.indexOf(x) !== -1] *)
Definition is_key (x : string) : bool :=
  negb (JS.array_indexOf KEYS_TO_MASK x 0 =? -1).

(** [a[i + 1] = x] for [i < a.length]: the array grows by one when [i] is
    its last index. *)
Definition set_next (i : nat) (x : string) (a : list string) : list string :=
  if (S i <? List.length a)%nat then <[S i := x]> a else a ++ [x].

(** The [for] loop of lines 539-543, from index [i] on; the length is read
    anew at every turn.  [fuel] bounds the turns of the model. *)
Fixpoint mask_loop (fuel : nat) (i : nat) (loggableArgs : list string)
  : list string :=
  match fuel with
  | O => loggableArgs
  | S fuel' =>
      match loggableArgs !! i with
      | Some x =>
          mask_loop fuel' (S i)
                    (if is_key x then set_next i "*******" loggableArgs
                     else loggableArgs)
      | None => loggableArgs
      end
  end.

(** The same loop told on the list: [masked] says that the element before
    was a key left in place, so that this one is overwritten. *)
Fixpoint mask_go (masked : bool) (l : list string) : list string :=
  match l with
  | [] => if masked then ["*******"] else []
  | x :: l' =>
      if masked then "*******" :: mask_go false l'
      else x :: mask_go (is_key x) l'
  end.

(** The array grows at most once, by one element. *)
Definition mask_keys (argv : list string) : list string :=
  mask_loop (S (List.length argv)) 0 argv.

(** Lines 544-547: [None] is the [TypeError] thrown when [--update-user]
    is the last element. *)
Definition mask_update_user (loggableArgs : list string)
  : option (list string) :=
  let index := JS.array_indexOf loggableArgs "--update-user" 0 in
  if negb (index =? -1) then
    match JS.array_get loggableArgs (index + 1) with
    | Some v =>
        Some (<[S (Z.to_nat index) := JSText.replace_password v]> loggableArgs)
    | None => None
    end
  else Some loggableArgs.

Definition loggable (argv : list string) : option (list string) :=
  mask_update_user (mask_keys argv).

End OnboardCli.

(** ** The supervisor, continued: what a cohort can cost *)
Module Cohort.

Import Supervisor.

(** The attempts a child has left after its own. *)
Definition remaining (c : Child) : nat := MAX_TRIES - c_tryNum c.

(** The forks made, and those that can still come. *)
Definition budget (st : Sup) : nat :=
  List.length (forks st) + list_sum (map remaining (children st)).

(** The supervisor when [run] returns: every fork made is a first
    attempt and is still listened to. *)
Definition FirstAttempts (st : Sup) : Prop :=
  children st = forks st /\ Forall (fun c => c_tryNum c = 1%nat) (forks st).

(** The number of times [x] is an element of [argv]. *)
Definition occurrences (x : string) (argv : list string) : nat :=
  List.length (List.filter (String.eqb x) argv).

End Cohort.

(* ===================================================================== *)
(** * Part II: properties                                                 *)
(* ===================================================================== *)

Import Supervisor.

Example split_examples :
  JS.split_ws "a  b" = ["a"; "b"] /\ JS.split_ws " a" = [""; "a"] /\
  JS.split_ws "a " = ["a"; ""] /\ JS.split_ws "" = [""] /\
  JS.trim "  a b  " = "a b" /\
  JS.indexOf "x --cl-args 'u v' y" "--cl-args" 0 = 2 /\
  JS.indexOf "abc" "'" 0 = -1 /\
  JS.substring "abcdef" 4 (-1) = "abcd" /\
  JS.array_indexOf ["a"; "b"; "a"] "a" 1 = 2.
Proof. repeat split; reflexivity. Qed.


(** ** JavaScript strings: the functions do what their names say *)

Section Strings.

Import JS.

Lemma chars_app a b : chars (a +:+ b) = chars a ++ chars b.
Proof.
  unfold chars. induction a as [|x a IH]; [reflexivity |].
  change (list_ascii_of_string (String x (a +:+ b))
          = x :: list_ascii_of_string a ++ list_ascii_of_string b).
  cbn [list_ascii_of_string]. now rewrite IH.
Qed.

Lemma str_chars s : str (chars s) = s.
Proof. apply string_of_list_ascii_of_string. Qed.

Lemma chars_str l : chars (str l) = l.
Proof. apply list_ascii_of_string_of_list_ascii. Qed.

Lemma chars_length s : String.length s = List.length (chars s).
Proof. induction s as [|x s IH]; cbn; [reflexivity | now rewrite IH]. Qed.

Lemma chars_inj a b : chars a = chars b -> a = b.
Proof. intros H. now rewrite <- (str_chars a), <- (str_chars b), H. Qed.

Lemma truthy_length s : truthy s = (0 <? Z.of_nat (String.length s)).
Proof. destruct s; reflexivity. Qed.

(** *** Searching *)

Lemma starts_with_app n b : starts_with n (n ++ b) = true.
Proof.
  induction n as [|x n IH]; [reflexivity |]. cbn.
  destruct (ascii_dec x x); [exact IH | contradiction].
Qed.

Lemma starts_with_true n : forall l,
  starts_with n l = true -> exists b, l = n ++ b.
Proof.
  induction n as [|x n IH]; intros l H; [now exists l |].
  destruct l as [|y l]; [discriminate |]. cbn in H.
  destruct (ascii_dec x y) as [-> |]; [| discriminate].
  destruct (IH l H) as [b ->]. now exists b.
Qed.

Lemma find_from_here n l k : starts_with n l = true -> find_from n l k = Some k.
Proof. intros H. destruct l; cbn [find_from]; now rewrite H. Qed.

Lemma find_from_skip n a : forall l k,
  (forall i, (i < List.length a)%nat -> starts_with n (drop i (a ++ l)) = false) ->
  find_from n (a ++ l) k = find_from n l (k + List.length a).
Proof.
  induction a as [|x a IH]; intros l k H.
  - cbn. now rewrite Nat.add_0_r.
  - cbn [app find_from List.length].
    pose proof (H 0%nat ltac:(cbn; lia)) as H0. cbn [drop app] in H0.
    rewrite H0, IH; [f_equal; lia |].
    intros i Hi. apply (H (S i)). cbn. lia.
Qed.

Lemma find_from_none n : forall l k,
  (forall i, starts_with n (drop i l) = false) -> find_from n l k = None.
Proof.
  induction l as [|x l IH]; intros k H; cbn [find_from];
    pose proof (H 0%nat) as H0; cbn [drop] in H0; rewrite H0; [reflexivity |].
  apply IH. intros i. apply (H (S i)).
Qed.



Lemma clamp_nat len i : (i <= len)%nat -> clamp len (Z.of_nat i) = i.
Proof. intros H. unfold clamp. lia. Qed.


(** *** Occurrences *)

Lemma contains_occurs n s : contains n s <-> occurs (chars n) (chars s).
Proof.
  split.
  - intros (a & b & ->). exists (chars a), (chars b). now rewrite !chars_app.
  - intros (a & b & H). exists (str a), (str b). apply chars_inj.
    now rewrite !chars_app, !chars_str.
Qed.

Lemma no_occurrence n l i : ~ occurs n l -> starts_with n (drop i l) = false.
Proof.
  intros H. destruct (starts_with n (drop i l)) eqn:E; [| reflexivity].
  exfalso. apply H. apply starts_with_true in E. destruct E as [b E].
  exists (take i l), b. now rewrite <- E, take_drop.
Qed.

(** No occurrence of [n] in [a] followed by all of [n] but its last
    character: no occurrence in [a ++ n ++ _] starts inside [a]. *)
Lemma no_occurrence_before n a rest i :
  ~ occurs n (a ++ take (List.length n - 1) rest) ->
  (i < List.length a)%nat ->
  starts_with n (drop i (a ++ rest)) = false.
Proof.
  intros H Hi. destruct (starts_with n (drop i (a ++ rest))) eqn:E; [| reflexivity].
  exfalso. apply H. apply starts_with_true in E. destruct E as [b E].
  assert (Hl : a ++ rest = take i a ++ n ++ b).
  { rewrite <- E. rewrite <- (take_drop i (a ++ rest)) at 1.
    f_equal. rewrite take_app_le by lia. reflexivity. }
  exists (take i a), (take (List.length a + (List.length n - 1) - i - List.length n) b).
  assert (Ht : take (List.length a + (List.length n - 1)) (a ++ rest)
               = a ++ take (List.length n - 1) rest).
  { rewrite take_app_ge by lia. f_equal. f_equal. lia. }
  rewrite <- Ht, Hl.
  rewrite take_app_ge by (rewrite length_take; lia).
  f_equal. rewrite length_take.
  rewrite take_app_ge by lia. f_equal. f_equal. lia.
Qed.

Lemma indexOf_absent s n : ~ contains n s -> indexOf s n 0 = -1.
Proof.
  intros H. unfold indexOf, indexOf_chars.
  rewrite (clamp_nat _ 0) by lia. rewrite drop_0.
  rewrite find_from_none; [reflexivity |].
  intros i. apply no_occurrence. now rewrite <- contains_occurs.
Qed.

Lemma indexOf_present s n : indexOf s n 0 = -1 -> ~ contains n s.
Proof.
  unfold indexOf, indexOf_chars. rewrite (clamp_nat _ 0) by lia. rewrite drop_0.
  intros H Hc. apply contains_occurs in Hc. destruct Hc as (a & b & Hc).
  rewrite Hc in H. clear Hc. revert H. generalize 0%nat.
  induction a as [|x a IH]; intros k H.
  - cbn [app] in H. rewrite find_from_here in H by apply starts_with_app.
    lia.
  - cbn [app find_from] in H.
    destruct (starts_with (chars n) (x :: a ++ chars n ++ b)); [lia |].
    now apply IH in H.
Qed.

Lemma not_contains_char q s : ~ contains (String q "") s -> ~ In q (chars s).
Proof.
  intros H Hin. apply H, contains_occurs.
  apply in_split in Hin. destruct Hin as (a & b & ->). now exists a, b.
Qed.

Lemma substring_mid x y z :
  substring_chars (x ++ y ++ z) (Z.of_nat (List.length x))
                  (Z.of_nat (List.length x + List.length y)) = y.
Proof.
  unfold substring_chars.
  rewrite !clamp_nat by (rewrite !length_app; lia).
  rewrite Nat.min_l, Nat.max_r by lia.
  rewrite drop_app_length.
  replace (List.length x + List.length y - List.length x)%nat
    with (List.length y) by lia.
  now rewrite take_app_length.
Qed.

Lemma substring_prefix s x y :
  chars s = chars x ++ y ->
  substring s 0 (Z.of_nat (String.length x)) = x.
Proof.
  intros H. unfold substring. rewrite H, chars_length.
  pose proof (substring_mid [] (chars x) y) as H0.
  cbn [app List.length Nat.add] in H0. change (Z.of_nat 0) with 0 in H0.
  rewrite H0. apply str_chars.
Qed.

Lemma substring_suffix s x y :
  chars s = x ++ chars y ->
  substring_from s (Z.of_nat (List.length x)) = y.
Proof.
  intros H. unfold substring_from, substring. rewrite chars_length, H.
  rewrite <- (app_nil_r (chars y)) at 1. rewrite length_app.
  rewrite (substring_mid x (chars y) []). apply str_chars.
Qed.

(** *** Splitting *)

Lemma split_go_no_ws : forall l in_sep tok,
  existsb is_ws tok = false ->
  Forall (fun t => existsb is_ws t = false) (split_go in_sep tok l).
Proof.
  induction l as [|c l IH]; intros in_sep tok Ht; cbn [split_go].
  - now constructor.
  - destruct (is_ws c) eqn:Hc.
    + destruct in_sep; [now apply IH |]. constructor; [exact Ht | now apply IH].
    + apply IH. rewrite existsb_app, Ht. cbn. now rewrite Hc.
Qed.

Lemma split_go_concat : forall l in_sep tok,
  concat (split_go in_sep tok l) = tok ++ List.filter (fun c => negb (is_ws c)) l.
Proof.
  induction l as [|c l IH]; intros in_sep tok; cbn [split_go List.filter].
  - cbn. reflexivity.
  - destruct (is_ws c); cbn [negb].
    + destruct in_sep; [apply IH |]. cbn [concat]. now rewrite IH.
    + rewrite IH. now rewrite <- app_assoc.
Qed.

(** Every token of [s.split(/\s+/)] is free of white space, and the
    tokens put together are [s] without its white space. *)
Lemma split_ws_tokens s :
  Forall (fun t => has_ws t = false) (split_ws s) /\
  concat (map chars (split_ws s))
    = List.filter (fun c => negb (is_ws c)) (chars s).
Proof.
  unfold split_ws, split_chars, has_ws. split.
  - apply Forall_map.
    eapply Forall_impl; [apply (split_go_no_ws (chars s) false []); reflexivity |].
    intros t Ht. cbn. now rewrite chars_str.
  - rewrite map_map. rewrite (map_ext _ id) by (intros; apply chars_str).
    rewrite map_id. apply (split_go_concat (chars s) false []).
Qed.

(** A string without white space is its own single token. *)
Lemma split_go_word : forall l tok,
  existsb is_ws l = false -> split_go false tok l = [tok ++ l].
Proof.
  induction l as [|c l IH]; intros tok H; cbn [split_go].
  - now rewrite app_nil_r.
  - cbn in H. apply orb_false_elim in H. destruct H as [Hc Hl].
    rewrite Hc, IH by exact Hl. now rewrite <- app_assoc.
Qed.

Lemma split_ws_word s : has_ws s = false -> split_ws s = [s].
Proof.
  intros H. unfold split_ws, split_chars.
  rewrite split_go_word by exact H. cbn. now rewrite str_chars.
Qed.

End Strings.

(** ** The argument list built from a [--script] string *)

Section ScriptArgs.

Import JS.

Lemma script_args_plain s :
  ~ contains "--cl-args" s -> script_args s = split_ws s.
Proof.
  intros H. unfold script_args. now rewrite (indexOf_absent s "--cl-args" H).
Qed.

Variables pre mid v post : string.
Hypothesis first_occurrence : ~ contains "--cl-args" (pre +:+ "--cl-arg").
Hypothesis mid_unquoted : ~ contains "'" mid.
Hypothesis value_unquoted : ~ contains "'" v.

Let s := pre +:+ "--cl-args" +:+ mid +:+ "'" +:+ v +:+ "'" +:+ post.







End ScriptArgs.




(** ** The supervisor: elementary facts *)

Section SupervisorFacts.

Lemma spawnScript_fields module arrayArgs stringArgs tryNum st :
  let c := {| c_pid := next_pid st; c_module := module;
              c_arrayArgs := arrayArgs; c_stringArgs := stringArgs;
              c_tryNum := match tryNum with Some t => t | None => 1%nat end;
              c_args := spawn_args arrayArgs stringArgs |} in
  let st' := spawnScript module arrayArgs stringArgs tryNum st in
  waiting st' = waiting st + 1 /\ children st' = c :: children st /\
  next_pid st' = S (next_pid st) /\ forks st' = c :: forks st /\
  exits st' = exits st /\ crashed st' = crashed st /\
  rebootSubs st' = rebootSubs st /\
  log st' = {| l_level := Debug;
               l_args := [LStr "Spawning child process"; LStr module;
                          LArr (spawn_args arrayArgs stringArgs)] |} :: log st.
Proof. destruct st; cbn. repeat split. Qed.

Lemma spawnScript_inv module arrayArgs stringArgs tryNum st :
  (match tryNum with Some t => 1 <= t <= MAX_TRIES | None => True end)%nat ->
  exits st = [] ->
  Inv st -> Inv (spawnScript module arrayArgs stringArgs tryNum st).
Proof.
  intros Ht Hex [Hc Hf Hn Hw He Hd Hs].
  destruct (spawnScript_fields module arrayArgs stringArgs tryNum st)
    as (Ew & Ec & Ep & _ & Ee & _ & Er & _).
  split; rewrite ?Ew, ?Ec, ?Ep, ?Ee, ?Er; trivial.
  - rewrite Hc. cbn [List.length]. lia.
  - constructor; [cbn; lia |].
    eapply Forall_impl; [exact Hf | cbn; intros; lia].
  - cbn [map c_pid]. constructor; [| exact Hn].
    intros Hin. apply list_elem_of_In, in_map_iff in Hin.
    destruct Hin as (c & Hpid & Hin).
    rewrite Forall_forall in Hf. apply list_elem_of_In, Hf in Hin. lia.
  - constructor; [| exact Hw]. split; [reflexivity |].
    cbn. destruct tryNum; [exact Ht | unfold MAX_TRIES; lia].
  - rewrite Hex. intros [].
Qed.

Lemma logger_inv lv args st : Inv st -> Inv (logger lv args st).
Proof. intros [? ? ? ? ? ? ?]. destruct st; split; assumption. Qed.

Lemma child_of_elem pid st c :
  child_of pid st = Some c -> In c (children st) /\ c_pid c = pid.
Proof.
  unfold child_of. intros H. apply find_some in H.
  destruct H as [Hin Heq]. apply Nat.eqb_eq in Heq. auto.
Qed.

Lemma child_of_head c st l :
  children st = c :: l -> child_of (c_pid c) st = Some c.
Proof. unfold child_of. intros ->. cbn. now rewrite Nat.eqb_refl. Qed.

Lemma filter_absent pid (l : list Child) :
  ~ In pid (map c_pid l) -> filter (fun c => c_pid c ≠ pid) l = l.
Proof.
  induction l as [|d l IH]; intros Hn; [reflexivity |].
  rewrite filter_cons, decide_True.
  - f_equal. apply IH. intros H. apply Hn. now right.
  - intros H. apply Hn. now left.
Qed.

Lemma reap_length pid (l : list Child) c :
  NoDup (map c_pid l) -> In c l -> c_pid c = pid ->
  S (List.length (filter (fun c => c_pid c ≠ pid) l)) = List.length l.
Proof.
  induction l as [|d l IH]; intros Hnd Hin Hpid; [destruct Hin |].
  cbn [map] in Hnd. apply NoDup_cons in Hnd. destruct Hnd as [Hd Hnd].
  rewrite filter_cons. destruct Hin as [-> | Hin].
  - rewrite decide_False by (intros H; now apply H).
    rewrite filter_absent; [reflexivity |].
    rewrite <- Hpid. intros H. apply Hd, list_elem_of_In, H.
  - rewrite decide_True.
    + cbn [List.length]. f_equal. now apply IH.
    + intros H. apply Hd. rewrite H, <- Hpid.
      apply list_elem_of_In, in_map, Hin.
Qed.

Lemma filter_keeps pid (l : list Child) (P : Child -> Prop) :
  Forall P l -> Forall P (filter (fun c => c_pid c ≠ pid) l).
Proof.
  induction 1 as [|d l Hd Hl IH]; [constructor |].
  rewrite filter_cons. destruct (decide (c_pid d ≠ pid)); [constructor |]; assumption.
Qed.

Lemma filter_nodup pid (l : list Child) :
  NoDup (map c_pid l) -> NoDup (map c_pid (filter (fun c => c_pid c ≠ pid) l)).
Proof.
  induction l as [|d l IH]; intros Hnd; [exact Hnd |].
  cbn [map] in Hnd. apply NoDup_cons in Hnd. destruct Hnd as [Hd Hnd].
  rewrite filter_cons. destruct (decide (c_pid d ≠ pid)); [| now apply IH].
  cbn [map]. apply NoDup_cons. split; [| now apply IH].
  intros H. apply Hd. apply list_elem_of_In, in_map_iff in H.
  destruct H as (e & He & Hin). apply list_elem_of_In, in_map_iff.
  exists e. split; [exact He |].
  apply list_elem_of_In. apply list_elem_of_In in Hin.
  now apply list_elem_of_filter in Hin.
Qed.

(** What the ['exit'] handler does, in a running supervisor. *)
Lemma handle_exit st pid c code signal :
  alive st = true -> child_of pid st = Some c ->
  let st' := handle (ChildExit pid code signal) st in
  let rest := filter (fun d => c_pid d ≠ pid) (children st) in
  rebootSubs st' = rebootSubs st /\ crashed st' = crashed st /\
  if retries code (c_tryNum c)
  then
    let c' := {| c_pid := next_pid st; c_module := c_module c;
                 c_arrayArgs := c_arrayArgs c; c_stringArgs := c_stringArgs c;
                 c_tryNum := S (c_tryNum c);
                 c_args := spawn_args (c_arrayArgs c) (c_stringArgs c) |} in
    children st' = c' :: rest /\ forks st' = c' :: forks st /\
    next_pid st' = S (next_pid st) /\ waiting st' = waiting st /\
    exits st' = (if waiting st =? 0 then [AtDrain] else [])
  else
    children st' = rest /\ forks st' = forks st /\
    next_pid st' = next_pid st /\ waiting st' = waiting st - 1 /\
    exits st' = (if waiting st =? 1 then [AtDrain] else []).
Proof.
  intros Hal Hc. cbn zeta. unfold handle. rewrite Hal, Hc. cbn [negb].
  unfold alive in Hal. destruct st as [w ch np fk lg ex cr rs]. cbn in *.
  destruct ex; [| discriminate].
  unfold on_exit. destruct (retries code (c_tryNum c)); cbn.
  - replace (w + 1 - 1) with w by lia.
    destruct (w =? 0); cbn; repeat split.
  - destruct (w - 1 =? 0) eqn:E.
    + apply Z.eqb_eq in E. replace (w =? 1) with true
        by (symmetry; apply Z.eqb_eq; lia). cbn. repeat split.
    + apply Z.eqb_neq in E. replace (w =? 1) with false
        by (symmetry; apply Z.eqb_neq; lia). cbn. repeat split.
Qed.

Lemma handle_inv e st : Inv st -> Inv (handle e st).
Proof.
  intros HI. destruct (alive st) eqn:Hal;
    [| unfold handle; rewrite Hal; exact HI].
  destruct e as [pid code signal | pid error |].
  - destruct (child_of pid st) as [c|] eqn:Hc;
      [| unfold handle; rewrite Hal, Hc; exact HI].
    pose proof (handle_exit st pid c code signal Hal Hc) as H. cbn zeta in H.
    destruct (child_of_elem _ _ _ Hc) as [Hin Hpid].
    destruct HI as [Hcnt Hf Hn Hw He Hd Hs].
    pose proof (reap_length pid _ c Hn Hin Hpid) as Hlen.
    assert (Hwc : well_formed c).
    { rewrite Forall_forall in Hw. apply Hw, list_elem_of_In, Hin. }
    destruct H as (Er & _ & H).
    destruct (retries code (c_tryNum c)) eqn:Hr.
    + destruct H as (Ech & _ & Enp & Ewt & Eex).
      assert (Ht : (c_tryNum c < MAX_TRIES)%nat).
      { unfold retries in Hr. destruct code; [| discriminate].
        apply andb_prop in Hr. destruct Hr as [_ Hr]. now apply Nat.ltb_lt in Hr. }
      split; rewrite ?Ech, ?Enp, ?Ewt, ?Eex, ?Er; trivial.
      * rewrite Hcnt. cbn [List.length]. lia.
      * constructor; [cbn; lia |].
        apply filter_keeps. eapply Forall_impl; [exact Hf | cbn; intros; lia].
      * cbn [map c_pid]. apply NoDup_cons. split; [| now apply filter_nodup].
        intros H. apply list_elem_of_In, in_map_iff in H.
        destruct H as (d & Hd1 & Hd2). apply list_elem_of_In in Hd2.
        apply list_elem_of_filter in Hd2. destruct Hd2 as [_ Hd2].
        rewrite Forall_forall in Hf. apply Hf in Hd2. lia.
      * constructor; [| now apply filter_keeps].
        split; [reflexivity |]. cbn. destruct Hwc as [_ Hb]. lia.
      * destruct (waiting st =? 0); cbn; lia.
      * destruct (waiting st =? 0) eqn:E; [| intros []].
        intros _. now apply Z.eqb_eq in E.
    + destruct H as (Ech & _ & Enp & Ewt & Eex).
      split; rewrite ?Ech, ?Enp, ?Ewt, ?Eex, ?Er; trivial.
      * rewrite Hcnt. lia.
      * now apply filter_keeps.
      * now apply filter_nodup.
      * now apply filter_keeps.
      * destruct (waiting st =? 1); cbn; lia.
      * destruct (waiting st =? 1) eqn:E; [| intros []].
        intros _. apply Z.eqb_eq in E. lia.
  - unfold handle. rewrite Hal. cbn [negb].
    destruct (child_of pid st); [| exact HI]. now apply logger_inv.
  - unfold handle. rewrite Hal. cbn [negb].
    destruct (0 <? rebootSubs st)%nat; [| exact HI].
    unfold alive in Hal. destruct HI as [Hcnt Hf Hn Hw He Hd Hs].
    destruct st as [w ch np fk lg ex cr rs]. cbn in *.
    destruct ex; [| discriminate].
    split; cbn; trivial. intros [H | []]. discriminate.
Qed.

Lemma run_events_inv tr st : Inv st -> Inv (run_events tr st).
Proof.
  revert st. induction tr as [|e tr IH]; intros st HI; [exact HI |].
  cbn. apply IH, handle_inv, HI.
Qed.

Lemma logger_spawning lv args st : Spawning st -> Spawning (logger lv args st).
Proof.
  intros (HI & He & Hc & Hr). split; [now apply logger_inv |].
  destruct st; auto.
Qed.

Lemma spawnScript_spawning module arrayArgs stringArgs st :
  Spawning st -> Spawning (spawnScript module arrayArgs stringArgs None st).
Proof.
  intros (HI & He & Hc & Hr).
  destruct (spawnScript_fields module arrayArgs stringArgs None st)
    as (_ & _ & _ & _ & Ee & Ecr & Er & _).
  split; [apply spawnScript_inv; trivial |].
  rewrite Ee, Ecr, Er. auto.
Qed.

Lemma script_loop_spawning fuel argv argIndex st :
  Spawning st -> Spawning (fst (script_loop fuel argv argIndex st)).
Proof.
  revert argIndex st. induction fuel as [|fuel IH]; intros argIndex st HS; cbn.
  - destruct (argIndex =? -1); exact HS.
  - destruct (argIndex =? -1); [exact HS |].
    destruct (JS.array_get argv (argIndex + 1)); [| exact HS].
    apply IH, logger_spawning, spawnScript_spawning, logger_spawning, HS.
Qed.

Lemma init_spawning : Spawning init.
Proof.
  repeat split; cbn; try constructor; try lia; try intros [].
Qed.

Lemma run_onboard_spawning argv st : Spawning st -> Spawning (run_onboard argv st).
Proof.
  intros HS. unfold run_onboard.
  destruct (negb _); [| now apply logger_spawning].
  now apply spawnScript_spawning, logger_spawning, logger_spawning.
Qed.

Lemma run_cluster_spawning argv st : Spawning st -> Spawning (run_cluster argv st).
Proof.
  intros HS. unfold run_cluster.
  destruct (negb _); [| now apply logger_spawning].
  now apply spawnScript_spawning, logger_spawning, logger_spawning.
Qed.

Lemma run_scripts_spawning argv st :
  Spawning st -> Spawning (fst (run_scripts argv st)).
Proof.
  intros HS. unfold run_scripts. now apply script_loop_spawning, logger_spawning.
Qed.

Lemma run_inv env argv : Inv (run env argv).
Proof.
  unfold run. destruct (negb _).
  - split; cbn; try constructor; lia.
  - destruct env as [|err].
    + set (st0 := run_cluster argv _).
      assert (HS : Spawning st0).
      { apply run_cluster_spawning, run_onboard_spawning.
        apply logger_spawning, logger_spawning, init_spawning. }
      pose proof (run_scripts_spawning argv st0 HS) as H.
      destruct (run_scripts argv st0) as [st c]. cbn in H.
      destruct H as (HI & He & Hc & Hr).
      destruct c; try exact HI; repeat apply logger_inv; trivial.
      destruct HI. destruct st; split; cbn in *; trivial. lia.
    + split; cbn; try constructor; lia.
Qed.

(** Every state the supervisor can be in satisfies the invariant. *)
Lemma reach_inv env argv tr : Inv (reach env argv tr).
Proof. apply run_events_inv, run_inv. Qed.

Lemma respawned_retry st pid c code signal :
  alive st = true -> child_of pid st = Some c ->
  respawned st (handle (ChildExit pid code signal) st) =
    if retries code (c_tryNum c)
    then Some {| c_pid := next_pid st; c_module := c_module c;
                 c_arrayArgs := c_arrayArgs c; c_stringArgs := c_stringArgs c;
                 c_tryNum := S (c_tryNum c);
                 c_args := spawn_args (c_arrayArgs c) (c_stringArgs c) |}
    else None.
Proof.
  intros Hal Hc. pose proof (handle_exit st pid c code signal Hal Hc) as H.
  cbn zeta in H. destruct H as (_ & _ & H). unfold respawned.
  destruct (retries code (c_tryNum c)).
  - destruct H as (_ & Ef & Enp & _). rewrite Enp, Ef.
    now rewrite (proj2 (Nat.ltb_lt _ _) (Nat.lt_succ_diag_r _)).
  - destruct H as (_ & _ & Enp & _). rewrite Enp.
    now rewrite Nat.ltb_irrefl.
Qed.

Lemma find_filter_other pid p (l : list Child) :
  p <> pid ->
  List.find (fun c => Nat.eqb (c_pid c) pid) (filter (fun c => c_pid c ≠ p) l)
  = List.find (fun c => Nat.eqb (c_pid c) pid) l.
Proof.
  intros Hne. induction l as [|d l IH]; [reflexivity |].
  rewrite filter_cons. destruct (decide (c_pid d ≠ p)) as [Hd | Hd].
  - cbn. now rewrite IH.
  - cbn. rewrite IH. apply dec_stable in Hd.
    destruct (Nat.eqb_spec (c_pid d) pid); [congruence | reflexivity].
Qed.

(** An event other than the exit of child [pid] leaves that child in place. *)
Lemma handle_keeps_child e st pid c :
  Inv st -> child_of pid st = Some c ->
  match e with
  | ChildExit p _ _ => enabled e st && (p =? pid)%nat = false
  | _ => True
  end ->
  child_of pid (handle e st) = Some c.
Proof.
  intros HI Hc He. destruct (alive st) eqn:Hal;
    [| unfold handle; rewrite Hal; exact Hc].
  destruct e as [p code signal | p error |].
  - destruct (child_of p st) as [d|] eqn:Hd;
      [| unfold handle; rewrite Hal, Hd; exact Hc].
    assert (Hne : p <> pid).
    { unfold enabled in He. rewrite Hal, Hd in He.
      rewrite bool_decide_true in He by eauto. cbn in He.
      now apply Nat.eqb_neq in He. }
    pose proof (handle_exit st p d code signal Hal Hd) as H. cbn zeta in H.
    destruct H as (_ & _ & H). unfold child_of in *.
    destruct (retries code (c_tryNum d)).
    + destruct H as (-> & _). cbn [List.find c_pid].
      destruct (child_of_elem pid st c Hc) as [Hin Hpid].
      pose proof (inv_fresh _ HI) as Hf. rewrite Forall_forall in Hf.
      apply list_elem_of_In, Hf in Hin.
      destruct (Nat.eqb_spec (next_pid st) pid); [lia |].
      now rewrite find_filter_other.
    + destruct H as (-> & _). now rewrite find_filter_other.
  - unfold handle. rewrite Hal. cbn [negb].
    destruct (child_of p st); [| exact Hc]. destruct st; exact Hc.
  - unfold handle. rewrite Hal. cbn [negb].
    destruct (0 <? rebootSubs st)%nat; [| exact Hc]. destruct st; exact Hc.
Qed.

Lemma follow_bound tr : forall st pid c n m k b a,
  Inv st -> child_of pid st = Some c -> c_tryNum c = n ->
  follow pid n tr st = Resolved m (Some k) b a -> k <> 0 ->
  m = MAX_TRIES /\ a = b - 1.
Proof.
  induction tr as [|e tr IH]; intros st pid c n m k b a HI Hc Hn Hf Hk;
    [discriminate |].
  cbn [follow] in Hf.
  assert (Hother : forall (He : match e with
                                | ChildExit p _ _ => enabled e st && (p =? pid)%nat = false
                                | _ => True
                                end),
             follow pid n tr (handle e st) = Resolved m (Some k) b a ->
             m = MAX_TRIES /\ a = b - 1).
  { intros He Hf'.
    apply (IH (handle e st) pid c n m k b a);
      [apply handle_inv, HI | now apply handle_keeps_child | | |]; assumption. }
  destruct e as [p code signal | p error |]; [| now apply Hother | now apply Hother].
  destruct (enabled (ChildExit p code signal) st && (p =? pid)%nat) eqn:E;
    [| now apply Hother].
  apply andb_prop in E. destruct E as [Hen Hp].
  apply Nat.eqb_eq in Hp. subst p.
  unfold enabled in Hen. apply andb_prop in Hen. destruct Hen as [Hal _].
  rewrite (respawned_retry st pid c code signal Hal Hc) in Hf.
  pose proof (handle_exit st pid c code signal Hal Hc) as H. cbn zeta in H.
  destruct H as (_ & _ & H).
  destruct (retries code (c_tryNum c)) eqn:Hr.
  - destruct H as (Ech & _). cbn [c_pid] in Hf.
    eapply IH; [apply handle_inv, HI | | | exact Hf | exact Hk].
    + eapply (child_of_head _ _ _ Ech).
    + cbn. now rewrite Hn.
  - destruct H as (_ & _ & _ & Ew & _).
    injection Hf as <- -> <- <-. split; [| exact Ew].
    destruct (child_of_elem _ _ _ Hc) as [Hin _].
    pose proof (inv_wf _ HI) as Hw. rewrite Forall_forall in Hw.
    apply list_elem_of_In, Hw in Hin. destruct Hin as [_ Hb].
    unfold retries in Hr. apply andb_false_iff in Hr.
    destruct Hr as [Hr | Hr].
    + apply negb_false_iff, Z.eqb_eq in Hr. contradiction.
    + apply Nat.ltb_ge in Hr. lia.
Qed.

(** One failed attempt below the ceiling: the worker goes on as the child
    just forked, and the supervisor stays as it was. *)
Lemma follow_retry st pid c n code signal tr :
  Inv st -> alive st = true -> child_of pid st = Some c ->
  retries code (c_tryNum c) = true ->
  let st' := handle (ChildExit pid code signal) st in
  follow pid n (ChildExit pid code signal :: tr) st
    = follow (next_pid st) (S n) tr st' /\
  alive st' = true /\ waiting st' = waiting st /\
  next_pid st' = S (next_pid st) /\
  (exists c', child_of (next_pid st) st' = Some c' /\
              c_tryNum c' = S (c_tryNum c)).
Proof.
  intros HI Hal Hc Hr. cbn zeta. cbn [follow].
  pose proof (handle_exit st pid c code signal Hal Hc) as H. cbn zeta in H.
  rewrite Hr in H. destruct H as (_ & Ecr & Ech & _ & Enp & Ew & Eex).
  assert (Hen : enabled (ChildExit pid code signal) st = true).
  { unfold enabled. rewrite Hal, Hc. now rewrite bool_decide_true by eauto. }
  rewrite Hen, Nat.eqb_refl. cbn [andb].
  rewrite (respawned_retry st pid c code signal Hal Hc), Hr. cbn [c_pid].
  split; [reflexivity |].
  destruct (child_of_elem _ _ _ Hc) as [Hin _].
  assert (Hpos : waiting st <> 0).
  { rewrite (inv_count _ HI). destruct (children st); [destruct Hin | cbn; lia]. }
  apply Z.eqb_neq in Hpos. rewrite Hpos in Eex.
  split.
  { unfold alive in *. rewrite Eex, Ecr.
    destruct (exits st); [exact Hal | discriminate]. }
  split; [exact Ew |]. split; [exact Enp |].
  eexists. split; [eapply (child_of_head _ _ _ Ech) | reflexivity].
Qed.



Lemma handle_dead e st : alive st = false -> handle e st = st.
Proof. intros H. unfold handle. now rewrite H. Qed.


(** *** The command line *)

Lemma array_find_spec x (a : list string) k :
  match JS.array_find x a k with
  | Some i => (k <= i)%nat /\ a !! (i - k)%nat = Some x /\
              forall j, (j < i - k)%nat -> a !! j <> Some x
  | None => forall j, a !! j <> Some x
  end.
Proof.
  revert k. induction a as [|y a IH]; intros k; cbn [JS.array_find].
  - intros j. now rewrite lookup_nil.
  - destruct (String.eqb_spec x y) as [-> | Hne].
    + rewrite Nat.sub_diag. split; [lia |]. split; [reflexivity |]. intros; lia.
    + specialize (IH (S k)). destruct (JS.array_find x a (S k)) as [i|].
      * destruct IH as (Hle & Hi & Hmin). split; [lia |].
        replace (i - k)%nat with (S (i - S k)) by lia. split; [exact Hi |].
        intros [|j] Hj; cbn; [congruence | apply Hmin; lia].
      * intros [|j]; cbn; [congruence | apply IH].
Qed.

(** [a.indexOf(x, p)] is the least index from [p] on that holds [x]. *)
Lemma array_indexOf_spec (a : list string) x p :
  0 <= p ->
  (JS.array_indexOf a x p = -1 /\
   forall j, (Z.to_nat p <= j)%nat -> a !! j <> Some x) \/
  (p <= JS.array_indexOf a x p /\
   a !! Z.to_nat (JS.array_indexOf a x p) = Some x /\
   forall j, (Z.to_nat p <= j)%nat -> (j < Z.to_nat (JS.array_indexOf a x p))%nat ->
             a !! j <> Some x).
Proof.
  intros Hp. unfold JS.array_indexOf.
  pose proof (array_find_spec x (drop (Z.to_nat p) a) (Z.to_nat p)) as H.
  destruct (JS.array_find x (drop (Z.to_nat p) a) (Z.to_nat p)) as [i|].
  - right. destruct H as (Hle & Hi & Hmin). rewrite lookup_drop in Hi.
    replace (Z.to_nat p + (i - Z.to_nat p))%nat with i in Hi by lia.
    rewrite Nat2Z.id. split; [lia |]. split; [exact Hi |].
    intros j Hj1 Hj2. specialize (Hmin (j - Z.to_nat p)%nat).
    rewrite lookup_drop in Hmin.
    replace (Z.to_nat p + (j - Z.to_nat p))%nat with j in Hmin by lia.
    apply Hmin. lia.
  - left. split; [reflexivity |]. intros j Hj.
    specialize (H (j - Z.to_nat p)%nat). rewrite lookup_drop in H.
    now replace (Z.to_nat p + (j - Z.to_nat p))%nat with j in H by lia.
Qed.

Lemma array_get_nat (a : list string) (i : Z) :
  0 <= i -> JS.array_get a (i + 1) = a !! S (Z.to_nat i).
Proof.
  intros Hi. unfold JS.array_get.
  destruct (Z.ltb_spec (i + 1) 0); [lia |]. f_equal. lia.
Qed.

(** The loop bound of the model is never reached, and the loop throws
    only when some [--script] is the last argument. *)
Lemma script_loop_completes fuel : forall argv argIndex st,
  (argIndex = -1 \/
   (0 <= argIndex /\ argv !! Z.to_nat argIndex = Some "--script" /\
    (List.length argv - Z.to_nat argIndex <= fuel)%nat)) ->
  match snd (script_loop fuel argv argIndex st) with
  | Normal => True
  | Threw _ => exists i, argv !! i = Some "--script" /\ argv !! S i = None
  | Diverged => False
  end.
Proof.
  induction fuel as [|fuel IH]; intros argv argIndex st H; cbn [script_loop].
  - destruct H as [-> | (H0 & Hi & Hf)]; [exact I |].
    apply lookup_lt_Some in Hi. lia.
  - destruct H as [-> | (H0 & Hi & Hf)]; [exact I |].
    destruct (Z.eqb_spec argIndex (-1)); [lia |].
    rewrite array_get_nat by exact H0.
    destruct (argv !! S (Z.to_nat argIndex)) as [scriptArgs|] eqn:Hget;
      [| cbn; eauto].
    apply IH.
    destruct (array_indexOf_spec argv "--script" (argIndex + 1) ltac:(lia))
      as [[-> _] | (Hle & Hj & _)]; [now left | right].
    split; [lia |]. split; [exact Hj |]. lia.
Qed.

Lemma run_scripts_completes argv st :
  match snd (run_scripts argv st) with
  | Normal => True
  | Threw _ => exists i, argv !! i = Some "--script" /\ argv !! S i = None
  | Diverged => False
  end.
Proof.
  unfold run_scripts. apply script_loop_completes.
  destruct (array_indexOf_spec argv "--script" 0 ltac:(lia))
    as [[-> _] | (Hle & Hj & _)]; [now left | right].
  split; [exact Hle |]. split; [exact Hj |]. lia.
Qed.


(** *** The [--script] loop forks one worker per [--script] argument *)

Lemma logger_forks lv args st : forks (logger lv args st) = forks st.
Proof. now destruct st. Qed.





End SupervisorFacts.

(** *** The model at work *)

Example script_args_examples :
  script_args "--file f.sh --log-level debug" = ["--file"; "f.sh"; "--log-level"; "debug"] /\
  script_args " a b" = [""; "a"; "b"] /\
  script_args "--foo bar --cl-args 'a b  c' --baz"
    = ["--cl-args"; "a b  c"; "--foo"; "bar"; "--baz"] /\
  script_args " --cl-args 'x y'" = ["--cl-args"; "x y"; ""] /\
  script_args "--cl-args foo" = ["--cl-args"; ""; "--cl-args"; "foo"].
Proof. repeat split; reflexivity. Qed.

(** [--help] ends the process before anything is spawned; a [--script]
    that ends the command line makes the loop throw, after the workers
    before it were forked and before [ipc.once('REBOOT')] is reached. *)
Example run_examples :
  exits (run SetupOk ["node"; "runScripts.js"; "--onboard"; "-h x"; "--help"])
    = [AtHelp] /\
  forks (run SetupOk ["node"; "runScripts.js"; "--onboard"; "-h x"; "--help"])
    = [] /\
  map c_module (forks (run SetupOk ["node"; "runScripts.js"; "--onboard"; "-h x";
                                    "--script"]))
    = ["onboard.js"] /\
  rebootSubs (run SetupOk ["node"; "runScripts.js"; "--onboard"; "-h x";
                           "--script"]) = 0%nat /\
  alive (run (SetupThrows "ENOENT") ["node"; "runScripts.js"]) = false.
Proof. repeat split; reflexivity. Qed.

(** ** C1: an attempt that ends with a [null] exit code *)

(** C1 fails on the code: the guard of the ['exit'] handler starts
    with [code !== null], so a first attempt killed by a signal is not
    forked again, while the same attempt exiting with code 1 is. *)
Lemma null_exit_code_counterexample :
  exists st c,
    st = run SetupOk ["node"; "runScripts.js"; "--onboard"; "--host 10.0.0.4";
                      "--cluster"; "--host 10.0.0.4"] /\
    alive st = true /\ child_of 0 st = Some c /\
    (c_tryNum c < MAX_TRIES)%nat /\
    respawned st (handle (ChildExit 0 None (Some "SIGKILL")) st) = None /\
    forks (handle (ChildExit 0 None (Some "SIGKILL")) st) = forks st /\
    is_Some (respawned st (handle (ChildExit 0 (Some 1) None) st)).
Proof.
  eexists. eexists. split; [reflexivity |].
  split; [reflexivity |]. split; [reflexivity |].
  split; [unfold MAX_TRIES; cbn; lia |].
  split; [reflexivity |]. split; [reflexivity |].
  vm_compute. eauto.
Qed.

(** C1, amended.  In every state the supervisor can reach, when an attempt
    of a worker exits: with a [null] exit code (the attempt was killed by a
    signal) nothing is forked and the counter drops by one; with a numeric
    exit code other than 0, below the ceiling of [MAX_TRIES] attempts, the
    worker is forked again with the same module, the same arguments and
    the attempt number incremented by one, and the counter is unchanged. *)
Theorem retry_only_on_numeric_exit_code env argv tr pid c code signal :
  alive (reach env argv tr) = true ->
  child_of pid (reach env argv tr) = Some c ->
  (code = None ->
     respawned (reach env argv tr)
               (handle (ChildExit pid code signal) (reach env argv tr)) = None /\
     forks (handle (ChildExit pid code signal) (reach env argv tr))
       = forks (reach env argv tr) /\
     waiting (handle (ChildExit pid code signal) (reach env argv tr))
       = waiting (reach env argv tr) - 1) /\
  (forall k, code = Some k -> k <> 0 -> (c_tryNum c < MAX_TRIES)%nat ->
     exists c',
       respawned (reach env argv tr)
                 (handle (ChildExit pid code signal) (reach env argv tr)) = Some c' /\
       forks (handle (ChildExit pid code signal) (reach env argv tr))
         = c' :: forks (reach env argv tr) /\
       c_module c' = c_module c /\ c_arrayArgs c' = c_arrayArgs c /\
       c_stringArgs c' = c_stringArgs c /\ c_args c' = c_args c /\
       c_tryNum c' = S (c_tryNum c) /\
       waiting (handle (ChildExit pid code signal) (reach env argv tr))
         = waiting (reach env argv tr)).
Proof.
  intros Hal Hc.
  pose proof (handle_exit _ pid c code signal Hal Hc) as H. cbn zeta in H.
  pose proof (respawned_retry _ pid c code signal Hal Hc) as Hr.
  destruct H as (_ & _ & H). split.
  - intros ->. cbn [retries] in *. destruct H as (_ & Ef & _ & Ew & _). auto.
  - intros k -> Hk Ht.
    assert (E : retries (Some k) (c_tryNum c) = true).
    { unfold retries. apply andb_true_intro. split.
      - apply negb_true_iff, Z.eqb_neq, Hk.
      - apply Nat.ltb_lt, Ht. }
    rewrite E in *. destruct H as (_ & Ef & _ & Ew & _).
    eexists. split; [exact Hr |]. split; [exact Ef |].
    cbn. repeat split; trivial.
    destruct (child_of_elem _ _ _ Hc) as [Hin _].
    pose proof (inv_wf _ (reach_inv env argv tr)) as Hw.
    rewrite Forall_forall in Hw. apply list_elem_of_In, Hw in Hin.
    symmetry. apply Hin.
Qed.

Lemma retry_only_on_numeric_exit_code_witness :
  exists c,
    child_of 0 (reach SetupOk ["node"; "runScripts.js"; "--onboard"; "--host 10.0.0.4"] [])
      = Some c /\
    exists c',
      respawned (reach SetupOk ["node"; "runScripts.js"; "--onboard"; "--host 10.0.0.4"] [])
                (handle (ChildExit 0 (Some 1) None)
                   (reach SetupOk ["node"; "runScripts.js"; "--onboard"; "--host 10.0.0.4"] []))
        = Some c' /\
      c_args c' = ["--host"; "10.0.0.4"] /\ c_tryNum c' = 2%nat.
Proof.
  eexists. split; [reflexivity |].
  destruct (retry_only_on_numeric_exit_code SetupOk
              ["node"; "runScripts.js"; "--onboard"; "--host 10.0.0.4"] []
              0 _ (Some 1) None eq_refl eq_refl) as [_ H].
  destruct (H 1 eq_refl ltac:(lia) ltac:(unfold MAX_TRIES; cbn; lia))
    as (c' & Hr & _ & _ & _ & _ & Ha & Ht & _).
  exists c'. split; [exact Hr |]. split; [exact Ha | exact Ht].
Defined.

(** ** C2: the retry bound *)

(** C2.  Take a worker whose first attempt is child [pid] of a supervisor
    that [run] and the events [tr0] produced.  Whatever events follow, if
    the worker's last attempt exits with a numeric code other than 0 (so
    that, the earlier attempts having been retried, no attempt exited with
    0), then exactly [MAX_TRIES] = 3 attempts were made and the handler of
    the last one lowered the counter by exactly one.  Three such exits in
    a row do resolve the worker that way: the two retries leave the
    counter alone, the third exit lowers it by one. *)
Theorem retry_bound env argv tr0 pid c :
  alive (reach env argv tr0) = true ->
  child_of pid (reach env argv tr0) = Some c ->
  c_tryNum c = 1%nat ->
  (forall tr n k before after,
     follow pid 1 tr (reach env argv tr0) = Resolved n (Some k) before after ->
     k <> 0 ->
     n = 3%nat /\ after = before - 1) /\
  (forall k1 k2 k3 s1 s2 s3,
     k1 <> 0 -> k2 <> 0 -> k3 <> 0 ->
     follow pid 1
       [ChildExit pid (Some k1) s1;
        ChildExit (next_pid (reach env argv tr0)) (Some k2) s2;
        ChildExit (S (next_pid (reach env argv tr0))) (Some k3) s3]
       (reach env argv tr0)
     = Resolved 3 (Some k3) (waiting (reach env argv tr0))
                (waiting (reach env argv tr0) - 1)).
Proof.
  intros Hal Hc Ht. pose proof (reach_inv env argv tr0) as HI.
  set (st := reach env argv tr0) in *. split.
  - intros tr n k b a Hf Hk.
    exact (follow_bound tr st pid c 1 n k b a HI Hc Ht Hf Hk).
  - intros k1 k2 k3 s1 s2 s3 H1 H2 H3.
    assert (Hretry : forall k t, k <> 0 -> (t < MAX_TRIES)%nat ->
                                 retries (Some k) t = true).
    { intros k t Hk Hlt. unfold retries. apply andb_true_intro. split.
      - now apply negb_true_iff, Z.eqb_neq.
      - now apply Nat.ltb_lt. }
    destruct (follow_retry st pid c 1 (Some k1) s1
                [ChildExit (next_pid st) (Some k2) s2;
                 ChildExit (S (next_pid st)) (Some k3) s3] HI Hal Hc)
      as (-> & Hal1 & Ew1 & Enp1 & c1 & Hc1 & Ht1).
    { apply Hretry; [exact H1 | rewrite Ht; unfold MAX_TRIES; lia]. }
    set (st1 := handle (ChildExit pid (Some k1) s1) st) in *.
    assert (HI1 : Inv st1) by apply handle_inv, HI.
    destruct (follow_retry st1 (next_pid st) c1 2 (Some k2) s2
                [ChildExit (S (next_pid st)) (Some k3) s3] HI1 Hal1 Hc1)
      as (-> & Hal2 & Ew2 & Enp2 & c2 & Hc2 & Ht2).
    { apply Hretry; [exact H2 | rewrite Ht1, Ht; unfold MAX_TRIES; lia]. }
    set (st2 := handle (ChildExit (next_pid st) (Some k2) s2) st1) in *.
    rewrite Enp1 in *.
    cbn [follow].
    assert (Hen : enabled (ChildExit (S (next_pid st)) (Some k3) s3) st2 = true).
    { unfold enabled. rewrite Hal2, Hc2. now rewrite bool_decide_true by eauto. }
    rewrite Hen, Nat.eqb_refl. cbn [andb].
    rewrite (respawned_retry st2 _ c2 (Some k3) s3 Hal2 Hc2).
    pose proof (handle_exit st2 _ c2 (Some k3) s3 Hal2 Hc2) as H. cbn zeta in H.
    assert (Hr : retries (Some k3) (c_tryNum c2) = false).
    { rewrite Ht2, Ht1, Ht. unfold retries. apply andb_false_iff. right.
      reflexivity. }
    rewrite Hr in *. destruct H as (_ & _ & _ & _ & _ & Ew & _).
    rewrite Ew, Ew2, Ew1. reflexivity.
Qed.

Lemma retry_bound_witness :
  follow 0 1 [ChildExit 0 (Some 1) None; ChildExit 2 (Some 137) None;
              ChildExit 3 (Some 1) None]
         (reach SetupOk ["node"; "runScripts.js"; "--onboard"; "--host 10.0.0.4";
                         "--cluster"; "--host 10.0.0.4"] [])
  = Resolved 3 (Some 1) 2 1.
Proof.
  destruct (retry_bound SetupOk
              ["node"; "runScripts.js"; "--onboard"; "--host 10.0.0.4";
               "--cluster"; "--host 10.0.0.4"] [] 0 _ eq_refl eq_refl eq_refl)
    as [_ H].
  exact (H 1 137 1 None None None ltac:(discriminate) ltac:(discriminate)
           ltac:(discriminate)).
Defined.

(** ** C3: drain to exit *)


(** The scenario of the specification: three workers, the first two exit
    with 0 at once, the third fails once and then succeeds.  The
    supervisor is still running after each of the first three exits and
    ends at the fourth. *)
Example drain_to_exit_scenario :
  let st := reach SetupOk ["node"; "runScripts.js"; "--onboard"; "--host h";
                           "--cluster"; "--host h"; "--script"; "--file f"] [] in
  let tr := [ChildExit 0 (Some 0) None; ChildExit 1 (Some 0) None;
             ChildExit 2 (Some 1) None; ChildExit 3 (Some 0) None] in
  map (fun n => exits (run_events (take n tr) st)) [0; 1; 2; 3; 4]%nat
  = [[]; []; []; []; [AtDrain]] /\
  map (fun n => waiting (run_events (take n tr) st)) [0; 1; 2; 3; 4]%nat
  = [3; 2; 1; 1; 0].
Proof. split; reflexivity. Qed.

(** ** C4: the reboot signal *)



(** ** C5: giving up on a worker *)

(** C5 fails on the code.  The cluster worker exits with 0; the
    onboard worker exits with 1 three times and is given up.  The
    supervisor then ends through [process.exit()], which is called without
    an argument: the process ends with status 0, not with a non-zero one.
    The handler that gives up logs the same verbose line as for every
    exit, followed by the drain message, and nothing about giving up. *)
Lemma give_up_exit_status_counterexample :
  exists st0 st st',
    st0 = reach SetupOk ["node"; "runScripts.js"; "--onboard"; "--host 10.0.0.4";
                         "--cluster"; "--host 10.0.0.4"] [] /\
    follow 0 1 [ChildExit 1 (Some 0) None; ChildExit 0 (Some 1) None;
                ChildExit 2 (Some 1) None; ChildExit 3 (Some 1) None] st0
      = Resolved 3 (Some 1) 1 0 /\
    st = run_events [ChildExit 1 (Some 0) None; ChildExit 0 (Some 1) None;
                     ChildExit 2 (Some 1) None] st0 /\
    st' = handle (ChildExit 3 (Some 1) None) st /\
    exits st' = [AtDrain] /\
    map (fun site => exit_status (exit_argument site)) (exits st') = [0] /\
    log st' =
      {| l_level := Info; l_args := [LStr "All children have exitted. Exitting."] |}
      :: {| l_level := Verbose;
            l_args := [LStr "onboard.js"; LStr "exitted with code:"; LNum 1;
                       LStr "/ signal:"; LStr "null"] |}
      :: log st.
Proof. do 3 eexists. repeat split; reflexivity. Qed.

(** C5, amended.  In every state the supervisor can reach, when the
    attempt number [MAX_TRIES] of a worker exits without the exit code 0:
    the worker is not forked again; the handler logs, at verbose level,
    the line that names the worker's module with its exit code and signal,
    and after it only the drain message when the cohort has drained; the
    counter drops by one; the other children are left as they are; and
    every [process.exit()] the supervisor has then made ends the process
    with status 0. *)
Theorem give_up_at_ceiling env argv tr pid c code signal :
  alive (reach env argv tr) = true ->
  child_of pid (reach env argv tr) = Some c ->
  c_tryNum c = MAX_TRIES ->
  code <> Some 0 ->
  respawned (reach env argv tr)
            (handle (ChildExit pid code signal) (reach env argv tr)) = None /\
  forks (handle (ChildExit pid code signal) (reach env argv tr))
    = forks (reach env argv tr) /\
  waiting (handle (ChildExit pid code signal) (reach env argv tr))
    = waiting (reach env argv tr) - 1 /\
  children (handle (ChildExit pid code signal) (reach env argv tr))
    = filter (fun d => c_pid d ≠ pid) (children (reach env argv tr)) /\
  log (handle (ChildExit pid code signal) (reach env argv tr))
    = (if waiting (reach env argv tr) =? 1
       then [{| l_level := Info;
                l_args := [LStr "All children have exitted. Exitting."] |}]
       else [])
      ++ {| l_level := Verbose;
            l_args := [LStr (c_module c); LStr "exitted with code:";
                       show_code code; LStr "/ signal:"; show_signal signal] |}
      :: log (reach env argv tr) /\
  exits (handle (ChildExit pid code signal) (reach env argv tr))
    = (if waiting (reach env argv tr) =? 1 then [AtDrain] else []) /\
  (forall site,
     In site (exits (handle (ChildExit pid code signal) (reach env argv tr))) ->
     exit_status (exit_argument site) = 0).
Proof.
  intros Hal Hc Ht Hcode.
  assert (Hr : retries code (c_tryNum c) = false).
  { rewrite Ht. destruct code; [| reflexivity]. cbn.
    apply andb_false_iff. now right. }
  pose proof (handle_exit _ pid c code signal Hal Hc) as H. cbn zeta in H.
  pose proof (respawned_retry _ pid c code signal Hal Hc) as Hre.
  rewrite Hr in H, Hre. destruct H as (_ & _ & Ech & Ef & _ & Ew & Eex).
  split; [exact Hre |]. split; [exact Ef |]. split; [exact Ew |].
  split; [exact Ech |]. split; [| split; [exact Eex | reflexivity]].
  unfold handle. rewrite Hal, Hc. cbn [negb]. unfold on_exit.
  unfold alive in Hal.
  destruct (reach env argv tr) as [w ch np fk lg ex cr rs]. cbn in *.
  rewrite Hr. cbn.
  destruct (Z.eqb_spec (w - 1) 0), (Z.eqb_spec w 1); try lia; reflexivity.
Qed.

Lemma give_up_at_ceiling_witness :
  exists st,
    st = reach SetupOk ["node"; "runScripts.js"; "--onboard"; "--host 10.0.0.4"]
               [ChildExit 0 (Some 1) None; ChildExit 1 (Some 1) None] /\
    waiting (handle (ChildExit 2 (Some 1) None) st) = 0 /\
    exits (handle (ChildExit 2 (Some 1) None) st) = [AtDrain] /\
    exit_status (exit_argument AtDrain) = 0.
Proof.
  eexists. split; [reflexivity |].
  destruct (give_up_at_ceiling SetupOk
              ["node"; "runScripts.js"; "--onboard"; "--host 10.0.0.4"]
              [ChildExit 0 (Some 1) None; ChildExit 1 (Some 1) None]
              2 _ (Some 1) None eq_refl eq_refl eq_refl ltac:(discriminate))
    as (_ & _ & Hw & _ & _ & He & Hs).
  split; [exact Hw |]. split; [exact He |].
  apply Hs. rewrite He. now left.
Defined.

(** ** C6: the [--script] argument string *)



(** ** The signal store *)

Section SignalStore.

Import Ipc.

Lemma raise_healthy name s :
  raise healthy name s = Ok (Some ({[name]} ∪ markers_of s)).
Proof.
  unfold raise, ensure_dir, testSynchronous, attempt, healthy. cbn.
  destruct s as [m|]; cbn.
  - destruct (bool_decide_reflect (name ∈ m)) as [H | H]; [| reflexivity].
    do 2 f_equal. symmetry. now apply subseteq_union_1_L, singleton_subseteq_l.
  - destruct (bool_decide_reflect (name ∈ (∅ : gset string))) as [H | H];
      [set_solver | reflexivity].
Qed.

(** A healthy store never loses a marker unless it is cleared. *)
Lemma apply_keeps_marker name e w :
  is_clear e = false ->
  name ∈ markers_of (store w) ->
  name ∈ markers_of (store (apply healthy e w)).
Proof.
  intros He Hn. destruct e as [n | n | i |]; unfold apply;
    [| | exact Hn | discriminate].
  - rewrite raise_healthy. cbn. apply elem_of_union. now right.
  - unfold awaitOnce, ensure_dir, attempt, healthy. cbn.
    destruct (store w); cbn in *; [exact Hn |].
    now apply not_elem_of_empty in Hn.
Qed.

Lemma poll_waiter_fulfils name s :
  name ∈ markers_of s ->
  poll_waiter healthy s {| w_name := name; w_state := Waiting; w_fired := 0 |}
  = {| w_name := name; w_state := Fulfilled; w_fired := 1 |}.
Proof.
  intros H. unfold poll_waiter, testSynchronous, attempt, healthy. cbn.
  now rewrite bool_decide_true.
Qed.

Lemma apply_fired_once name i e w :
  fired_once name i w -> fired_once name i (apply healthy e w).
Proof.
  unfold fired_once. intros H. destruct e as [n | n | j |]; unfold apply.
  - now rewrite raise_healthy.
  - unfold awaitOnce. destruct (ensure_dir healthy (store w)); cbn;
      now apply lookup_app_l_Some.
  - unfold poll. cbn [waiters]. destruct (decide (j = i)) as [-> | Hne].
    + rewrite list_lookup_alter_eq, H. reflexivity.
    + now rewrite list_lookup_alter_ne.
  - destruct (clearAll healthy (store w)); exact H.
Qed.

Lemma apply_unfired name i e w :
  is_clear e = false ->
  name ∈ markers_of (store w) ->
  unfired name i w ->
  match e with
  | EvPoll j => if decide (j = i) then fired_once name i (apply healthy e w)
                else unfired name i (apply healthy e w)
  | _ => unfired name i (apply healthy e w)
  end.
Proof.
  unfold unfired, fired_once. intros He Hn H.
  destruct e as [n | n | j |]; unfold apply; [| | | discriminate].
  - now rewrite raise_healthy.
  - unfold awaitOnce. destruct (ensure_dir healthy (store w)); cbn;
      now apply lookup_app_l_Some.
  - unfold poll. cbn [waiters]. destruct (decide (j = i)) as [-> | Hne].
    + rewrite list_lookup_alter_eq, H. cbn [fmap option_fmap option_map]. f_equal.
      now apply poll_waiter_fulfils.
    + now rewrite list_lookup_alter_ne.
Qed.

Lemma run_world_fired_once name i tr : forall w,
  fired_once name i w -> fired_once name i (run_world healthy tr w).
Proof.
  induction tr as [|e tr IH]; intros w H; [exact H |].
  cbn. apply IH. now apply apply_fired_once.
Qed.

(** Once the marker is there, the first poll of a waiter fulfils it, and
    only the first. *)
Lemma run_world_unfired name i tr : forall w,
  forallb (fun e => negb (is_clear e)) tr = true ->
  name ∈ markers_of (store w) ->
  unfired name i w ->
  In (EvPoll i) tr ->
  fired_once name i (run_world healthy tr w).
Proof.
  induction tr as [|e tr IH]; intros w Hc Hn Hu Hin; [destruct Hin |].
  cbn in Hc. apply andb_prop in Hc. destruct Hc as [He Hc].
  apply negb_true_iff in He.
  pose proof (apply_unfired name i e w He Hn Hu) as Hstep.
  pose proof (apply_keeps_marker name e w He Hn) as Hn'.
  cbn [run_world fold_left].
  destruct e as [n | n | j |];
    try (destruct Hin as [Hin | Hin]; [discriminate |]; now apply IH).
  destruct (decide (j = i)) as [-> | Hne].
  - now apply run_world_fired_once.
  - destruct Hin as [Hin | Hin]; [congruence |]. now apply IH.
Qed.

Lemma awaitOnce_unset name w :
  name ∉ markers_of (store w) ->
  unfired name (List.length (waiters w)) (awaitOnce healthy name w) /\
  markers_of (store (awaitOnce healthy name w)) = markers_of (store w) /\
  List.length (waiters (awaitOnce healthy name w)) = S (List.length (waiters w)).
Proof.
  intros H. unfold unfired, awaitOnce, ensure_dir, testSynchronous, attempt, healthy.
  cbn. destruct (store w) as [m|]; cbn in *.
  - rewrite bool_decide_false by exact H. cbn.
    rewrite length_app. cbn. split; [| split; [reflexivity | lia]].
    now rewrite list_lookup_middle.
  - rewrite bool_decide_false by set_solver. cbn.
    rewrite length_app. cbn. split; [| split; [reflexivity | lia]].
    now rewrite list_lookup_middle.
Qed.

Lemma awaitOnce_keeps name n i w :
  unfired name i w -> unfired name i (awaitOnce healthy n w).
Proof.
  unfold unfired, awaitOnce. intros H.
  destruct (ensure_dir healthy (store w)); cbn; now apply lookup_app_l_Some.
Qed.

(** A successful [raise] leaves a store on which raising the same name
    again changes nothing, and on which the name tests as raised. *)
Lemma raise_twice fails name s s1 :
  raise fails name s = Ok s1 ->
  raise fails name s1 = Ok s1 /\ testSynchronous fails name s1 = Ok true.
Proof.
  unfold raise, ensure_dir, testSynchronous, attempt.
  destruct (fails OpExists) eqn:Hex; [discriminate |]. cbn.
  assert (Hin : forall m : gset string, name ∈ m ->
            (if bool_decide (name ∈ m) then Ok (Some m)
             else if fails OpCreate then IOError OpCreate
                  else Ok (Some ({[name]} ∪ m))) = Ok (Some m)
            /\ Ok (A := bool) (bool_decide (name ∈ m)) = Ok true).
  { intros m Hm. now rewrite bool_decide_true. }
  assert (Hstep : forall m : gset string,
            (if bool_decide (name ∈ m) then Ok (Some m)
             else if fails OpCreate then IOError OpCreate
                  else Ok (Some ({[name]} ∪ m))) = Ok s1 ->
            exists m1, s1 = Some m1 /\ name ∈ m1).
  { intros m. destruct (bool_decide_reflect (name ∈ m)) as [Hm | Hm].
    - intros [= <-]. eauto.
    - destruct (fails OpCreate); [discriminate |]. intros [= <-].
      eexists. split; [reflexivity |]. apply elem_of_union. left.
      now apply elem_of_singleton. }
  intros H.
  assert (Hs1 : exists m1, s1 = Some m1 /\ name ∈ m1).
  { destruct s as [m|]; cbn in H.
    - now apply (Hstep m).
    - destruct (fails OpMkdir); [discriminate |]. now apply (Hstep ∅). }
  destruct Hs1 as (m1 & -> & Hm1). cbn. now apply Hin.
Qed.

Lemma raise_idempotent fails name w :
  apply fails (EvRaise name) (apply fails (EvRaise name) w)
  = apply fails (EvRaise name) w.
Proof.
  unfold apply. destruct (raise fails name (store w)) as [s1 | op] eqn:E.
  - cbn [store waiters]. destruct (raise_twice fails name _ s1 E) as [-> _].
    reflexivity.
  - now rewrite E.
Qed.

Lemma fold_unlink_error fails op names :
  fold_left (fun acc name => m ← acc; unlink fails name m) names (IOError op)
  = IOError op.
Proof. induction names as [|n names IH]; [reflexivity | exact IH]. Qed.

End SignalStore.

(** ** C7: one raise satisfies every waiter *)

(** C7.  On a store whose file operations succeed, let two calls of
    [awaitOnce] be made for a name [N] that is not raised, and [N] be
    raised once after them.  Before the raise neither continuation has
    run.  After it, whatever else happens on the store short of a clear
    (further raises of [N] included), as soon as each of the two waiters
    has had a poll, both are fulfilled and the continuation of each has
    run exactly once. *)
Theorem broadcast_wait N w tr :
  N ∉ Ipc.markers_of (Ipc.store w) ->
  forallb (fun e => negb (Ipc.is_clear e)) tr = true ->
  In (Ipc.EvPoll (List.length (Ipc.waiters w))) tr ->
  In (Ipc.EvPoll (S (List.length (Ipc.waiters w)))) tr ->
  Ipc.fired (List.length (Ipc.waiters w))
    (Ipc.run_world Ipc.healthy [Ipc.EvAwait N; Ipc.EvAwait N] w) = 0%nat /\
  Ipc.fired (S (List.length (Ipc.waiters w)))
    (Ipc.run_world Ipc.healthy [Ipc.EvAwait N; Ipc.EvAwait N] w) = 0%nat /\
  Ipc.fired_once N (List.length (Ipc.waiters w))
    (Ipc.run_world Ipc.healthy
       ([Ipc.EvAwait N; Ipc.EvAwait N; Ipc.EvRaise N] ++ tr) w) /\
  Ipc.fired_once N (S (List.length (Ipc.waiters w)))
    (Ipc.run_world Ipc.healthy
       ([Ipc.EvAwait N; Ipc.EvAwait N; Ipc.EvRaise N] ++ tr) w).
Proof.
  intros Hn Hc Hi Hj.
  destruct (awaitOnce_unset N w Hn) as (Hu1 & Hm1 & Hl1).
  set (w1 := Ipc.awaitOnce Ipc.healthy N w) in *.
  assert (Hn1 : N ∉ Ipc.markers_of (Ipc.store w1)) by now rewrite Hm1.
  destruct (awaitOnce_unset N w1 Hn1) as (Hu2 & Hm2 & Hl2).
  rewrite Hl1 in Hu2.
  pose proof (awaitOnce_keeps N N _ w1 Hu1) as Hu1'.
  set (w2 := Ipc.awaitOnce Ipc.healthy N w1) in *.
  change (Ipc.run_world Ipc.healthy [Ipc.EvAwait N; Ipc.EvAwait N] w) with w2.
  change (Ipc.run_world Ipc.healthy
            ([Ipc.EvAwait N; Ipc.EvAwait N; Ipc.EvRaise N] ++ tr) w)
    with (Ipc.run_world Ipc.healthy tr (Ipc.apply Ipc.healthy (Ipc.EvRaise N) w2)).
  unfold Ipc.fired. unfold Ipc.unfired in Hu1', Hu2. rewrite Hu1', Hu2.
  split; [reflexivity |]. split; [reflexivity |].
  assert (Hraised : N ∈ Ipc.markers_of
                      (Ipc.store (Ipc.apply Ipc.healthy (Ipc.EvRaise N) w2))).
  { unfold Ipc.apply. rewrite raise_healthy. cbn.
    apply elem_of_union. left. now apply elem_of_singleton. }
  split; apply run_world_unfired; trivial;
    unfold Ipc.unfired, Ipc.apply; now rewrite raise_healthy.
Qed.

Lemma broadcast_wait_witness :
  Ipc.fired_once "foo" 0
    (Ipc.run_world Ipc.healthy
       ([Ipc.EvAwait "foo"; Ipc.EvAwait "foo"; Ipc.EvRaise "foo"]
          ++ [Ipc.EvRaise "foo"; Ipc.EvPoll 0; Ipc.EvPoll 1; Ipc.EvPoll 0])
       {| Ipc.store := None; Ipc.waiters := [] |}) /\
  Ipc.fired_once "foo" 1
    (Ipc.run_world Ipc.healthy
       ([Ipc.EvAwait "foo"; Ipc.EvAwait "foo"; Ipc.EvRaise "foo"]
          ++ [Ipc.EvRaise "foo"; Ipc.EvPoll 0; Ipc.EvPoll 1; Ipc.EvPoll 0])
       {| Ipc.store := None; Ipc.waiters := [] |}).
Proof.
  refine (proj2 (proj2
    (broadcast_wait "foo" {| Ipc.store := None; Ipc.waiters := [] |}
       [Ipc.EvRaise "foo"; Ipc.EvPoll 0; Ipc.EvPoll 1; Ipc.EvPoll 0]
       _ eq_refl _ _))).
  - apply not_elem_of_empty.
  - cbn. auto.
  - cbn. auto.
Defined.

(** ** C8: raising twice *)

(** C8.  For every name [N], whatever the file system does: raising [N]
    twice in a row leaves the store and its waiters, now and after any
    further events, exactly as raising it once does; when the raise
    succeeds, [testSynchronous N] answers true after one raise and after
    two.  On a store whose file operations succeed, a waiter for [N]
    whose continuation has not run is, after the two raises and a poll,
    fulfilled with its continuation run exactly once. *)
Theorem idempotent_raise fails N w tr :
  Ipc.run_world fails (Ipc.EvRaise N :: Ipc.EvRaise N :: tr) w
    = Ipc.run_world fails (Ipc.EvRaise N :: tr) w /\
  (forall s1, Ipc.raise fails N (Ipc.store w) = Ipc.Ok s1 ->
     Ipc.raise fails N s1 = Ipc.Ok s1 /\
     Ipc.testSynchronous fails N s1 = Ipc.Ok true) /\
  (forall i,
     Ipc.unfired N i w ->
     forallb (fun e => negb (Ipc.is_clear e)) tr = true ->
     In (Ipc.EvPoll i) tr ->
     Ipc.fired_once N i
       (Ipc.run_world Ipc.healthy (Ipc.EvRaise N :: Ipc.EvRaise N :: tr) w)).
Proof.
  split; [| split].
  - cbn [Ipc.run_world fold_left]. now rewrite raise_idempotent.
  - intros s1. apply raise_twice.
  - intros i Hu Hc Hin. cbn [Ipc.run_world fold_left].
    rewrite raise_idempotent. apply run_world_unfired; trivial.
    + unfold Ipc.apply. rewrite raise_healthy. cbn.
      apply elem_of_union. left. now apply elem_of_singleton.
    + unfold Ipc.unfired, Ipc.apply. now rewrite raise_healthy.
Qed.

(** The run of the test suite: one wait for [foo], two sends, and the
    counter is 1 afterwards. *)
Lemma idempotent_raise_witness :
  Ipc.fired_once "foo" 0
    (Ipc.run_world Ipc.healthy
       [Ipc.EvRaise "foo"; Ipc.EvRaise "foo"; Ipc.EvPoll 0; Ipc.EvPoll 0]
       (Ipc.awaitOnce Ipc.healthy "foo"
          {| Ipc.store := None; Ipc.waiters := [] |})).
Proof.
  refine (proj2 (proj2
    (idempotent_raise Ipc.healthy "foo"
       (Ipc.awaitOnce Ipc.healthy "foo" {| Ipc.store := None; Ipc.waiters := [] |})
       [Ipc.EvPoll 0; Ipc.EvPoll 0])) 0%nat eq_refl eq_refl _).
  cbn. auto.
Defined.

(** ** C9: errors of the file system *)

(** C9.  When a file operation that a call of the store performs is
    refused (for a reason other than the marker or the directory being
    there already, or there being nothing to remove), [raise] and
    [clearAll] return that error to their caller and [awaitOnce] leaves a
    rejected future whose continuation has not run, at the call or at the
    poll that met the error; the error reported is one the file system
    gave. *)
Theorem store_errors_surface fails name s w :
  ((fails Ipc.OpExists = true \/
    (s = None /\ fails Ipc.OpMkdir = true) \/
    ((name ∉ Ipc.markers_of s) /\ fails Ipc.OpCreate = true)) ->
   exists op, Ipc.raise fails name s = Ipc.IOError op /\ fails op = true) /\
  ((fails Ipc.OpReaddir = true \/
    (Ipc.markers_of s <> ∅ /\ fails Ipc.OpUnlink = true)) ->
   exists op, Ipc.clearAll fails s = Ipc.IOError op /\ fails op = true) /\
  ((fails Ipc.OpExists = true \/
    (Ipc.store w = None /\ fails Ipc.OpMkdir = true)) ->
   exists op,
     Ipc.waiters (Ipc.awaitOnce fails name w) !! List.length (Ipc.waiters w)
       = Some {| Ipc.w_name := name; Ipc.w_state := Ipc.Rejected op;
                 Ipc.w_fired := 0 |} /\
     fails op = true) /\
  (forall i,
     Ipc.unfired name i w -> fails Ipc.OpExists = true ->
     Ipc.waiters (Ipc.poll fails i w) !! i
       = Some {| Ipc.w_name := name; Ipc.w_state := Ipc.Rejected Ipc.OpExists;
                 Ipc.w_fired := 0 |}).
Proof.
  split; [| split; [| split]].
  - unfold Ipc.raise, Ipc.ensure_dir, Ipc.testSynchronous, Ipc.attempt.
    destruct (fails Ipc.OpExists) eqn:Hex; [cbn; eauto |].
    intros [H | [[-> H] | [Hn H]]]; [discriminate | |].
    + cbn. rewrite H. cbn. eauto.
    + destruct s as [m|]; cbn in *.
      * rewrite bool_decide_false by exact Hn. rewrite H. eauto.
      * destruct (fails Ipc.OpMkdir) eqn:Hmk; cbn; [eauto |].
        rewrite bool_decide_false by exact Hn. rewrite H. eauto.
  - unfold Ipc.clearAll, Ipc.attempt.
    destruct (fails Ipc.OpReaddir) eqn:Hrd; [cbn; eauto |].
    intros [H | [Hne H]]; [discriminate |]. cbn.
    destruct (elements (Ipc.markers_of s)) as [|n names] eqn:E.
    + apply elements_empty_inv in E. apply leibniz_equiv in E. contradiction.
    + cbn [fold_left]. unfold Ipc.unlink at 2, Ipc.attempt. cbn. rewrite H.
      rewrite fold_unlink_error. cbn. eauto.
  - unfold Ipc.awaitOnce, Ipc.ensure_dir, Ipc.testSynchronous, Ipc.attempt.
    destruct (fails Ipc.OpExists) eqn:Hex.
    + intros _. cbn. exists Ipc.OpExists. split; [| exact Hex].
      now rewrite list_lookup_middle.
    + intros [H | [Hs H]]; [discriminate |]. rewrite Hs. cbn. rewrite H. cbn.
      exists Ipc.OpMkdir. split; [| exact H]. now rewrite list_lookup_middle.
  - intros i Hu Hex. unfold Ipc.poll. cbn [Ipc.waiters].
    rewrite list_lookup_alter_eq, Hu. cbn [fmap option_fmap option_map].
    unfold Ipc.poll_waiter, Ipc.testSynchronous, Ipc.attempt. cbn.
    now rewrite Hex.
Qed.

(** The cases of the test suite: closing the marker file fails in [send],
    reading the directory fails in [clearSignals], the existence check
    fails in [once]. *)
Example store_errors_tests :
  Ipc.raise (fun op => match op with Ipc.OpCreate => true | _ => false end)
            "foo" None = Ipc.IOError Ipc.OpCreate /\
  Ipc.clearAll (fun op => match op with Ipc.OpReaddir => true | _ => false end)
               None = Ipc.IOError Ipc.OpReaddir /\
  Ipc.waiters
    (Ipc.awaitOnce (fun op => match op with Ipc.OpExists => true | _ => false end)
                   "foo" {| Ipc.store := None; Ipc.waiters := [] |})
  = [{| Ipc.w_name := "foo"; Ipc.w_state := Ipc.Rejected Ipc.OpExists;
        Ipc.w_fired := 0 |}].
Proof. repeat split; reflexivity. Qed.

(** ** C10: the onboarding worker and the error signal *)

Section OnboardFacts.

Import Onboard.

Variable signals : Signals.
Variable options : Options.
Variable cb : bool.

(** With options that pass the checks and no exception in the [try]
    block, [run] leaves a worker that waits for the error signal, with its
    chain of steps started and no signal sent. *)
Lemma run_waits :
  given (host options) = true ->
  forceReboot options && negb (reboot options) = false ->
  given (user options)
    && negb (given (password options) || given (passwordUrl options)) = false ->
  background options = false ->
  run signals options cb NoThrow
  = {| actions := [Once "REBOOT"; Once (CLOUD_LIBS_ERROR signals)];
       rebooting := false; exiting := false; workflow := Running |}.
Proof.
  intros Hh Hf Hu Hb. unfold run, check_options. now rewrite Hh, Hf, Hu, Hb.
Qed.




End OnboardFacts.



(* ===================================================================== *)
(** * Part III: more of the code                                          *)
(* ===================================================================== *)

(** ** Splitting on a string *)

Section SplitOn.

Import JS JSText.

Lemma split_on_skip sep : forall x tok b,
  split_on_go sep (List.length x) tok (x ++ b) = split_on_go sep 0 tok b.
Proof.
  induction x as [|c x IH]; intros tok b; [reflexivity |].
  cbn [List.length app split_on_go]. apply IH.
Qed.

Lemma split_on_none sep : forall l tok,
  (forall i, starts_with sep (drop i l) = false) ->
  split_on_go sep 0 tok l = [tok ++ l].
Proof.
  induction l as [|c l IH]; intros tok H; cbn [split_on_go].
  - now rewrite app_nil_r.
  - pose proof (H 0%nat) as H0. cbn [drop] in H0. rewrite H0.
    rewrite IH; [now rewrite <- app_assoc |].
    intros i. apply (H (S i)).
Qed.

(** The piece up to the first occurrence of [sep], then the rest. *)
Lemma split_on_first sep b : forall a tok,
  sep <> [] ->
  (forall i, (i < List.length a)%nat ->
             starts_with sep (drop i (a ++ sep ++ b)) = false) ->
  split_on_go sep 0 tok (a ++ sep ++ b)
  = (tok ++ a) :: split_on_go sep 0 [] b.
Proof.
  induction a as [|c a IH]; intros tok Hsep H.
  - destruct sep as [|x sep']; [contradiction |].
    cbn [app split_on_go]. rewrite app_nil_r.
    pose proof (starts_with_app (x :: sep') b) as Hs. cbn [app] in Hs.
    rewrite Hs. f_equal.
    replace (List.length (x :: sep') - 1)%nat with (List.length sep')
      by (cbn [List.length]; lia).
    apply split_on_skip.
  - cbn [app split_on_go].
    pose proof (H 0%nat ltac:(cbn; lia)) as H0. cbn [drop app] in H0.
    rewrite H0, IH; [now rewrite <- app_assoc | exact Hsep |].
    intros i Hi. apply (H (S i)). cbn. lia.
Qed.

(** An occurrence of [sep] that starts inside [x] and runs into [t] would
    put the last character of [sep] into [t]. *)
Lemma starts_with_app_inv t : forall sep x,
  (forall c, last sep = Some c -> ~ In c t) ->
  starts_with sep (x ++ t) = true -> starts_with sep x = true.
Proof.
  induction sep as [|s sep IH]; intros x Hlast H; [reflexivity |].
  destruct x as [|c x].
  - exfalso. cbn [app] in H. apply starts_with_true in H. destruct H as [b ->].
    destruct (last (s :: sep)) as [z|] eqn:Hz.
    + apply (Hlast z eq_refl). apply last_Some in Hz. destruct Hz as [l' Hz].
      rewrite Hz, <- app_assoc. apply in_or_app. right. now left.
    + now apply last_None in Hz.
  - cbn [app starts_with] in *. destruct (ascii_dec s c); [| discriminate].
    apply IH; [| exact H]. intros z Hz. apply Hlast.
    destruct sep; [discriminate | exact Hz].
Qed.

Lemma starts_with_length n : forall l,
  starts_with n l = true -> (List.length n <= List.length l)%nat.
Proof.
  induction n as [|x n IH]; intros l H; [cbn; lia |].
  destruct l as [|y l]; [discriminate |]. cbn in H.
  destruct (ascii_dec x y); [| discriminate]. apply IH in H. cbn. lia.
Qed.

Lemma occurs_starts n l :
  occurs n l -> exists i, starts_with n (drop i l) = true.
Proof.
  intros (a & b & ->). exists (List.length a).
  rewrite drop_app_length. apply starts_with_app.
Qed.

(** [sep] does not occur in [a], and its last character occurs nowhere
    else in it: then no occurrence of [sep] starts inside [a] whatever
    follows [a ++ sep]. *)
Lemma first_occurrence sep a b i :
  ~ occurs sep a ->
  (forall c, last sep = Some c -> ~ In c (take (List.length sep - 1) sep)) ->
  (i < List.length a)%nat ->
  starts_with sep (drop i (a ++ sep ++ b)) = false.
Proof.
  intros Hno Hlast Hi. apply no_occurrence_before; [| exact Hi].
  rewrite take_app_le by lia.
  intros Ho. apply occurs_starts in Ho. destruct Ho as [j Hj].
  destruct (Nat.lt_ge_cases j (List.length a)) as [Hlt | Hge].
  - rewrite drop_app_le in Hj by lia.
    apply starts_with_app_inv in Hj; [| exact Hlast].
    rewrite no_occurrence in Hj by exact Hno. discriminate.
  - apply starts_with_length in Hj.
    rewrite length_drop, length_app, length_take in Hj.
    destruct sep; [| cbn [List.length] in Hj; lia].
    apply Hno. now exists [], a.
Qed.

(** No occurrence of [sep] starts in a prefix that lacks its first
    character. *)
Lemma occurs_after_prefix sep p x :
  (forall c, head sep = Some c -> ~ In c p) ->
  sep <> [] -> ~ occurs sep x -> ~ occurs sep (p ++ x).
Proof.
  intros Hhead Hsep Hno Ho. apply occurs_starts in Ho. destruct Ho as [j Hj].
  destruct (Nat.lt_ge_cases j (List.length p)) as [Hlt | Hge].
  - rewrite drop_app_le in Hj by lia.
    destruct sep as [|s sep]; [contradiction |].
    destruct (drop j p) as [|c r] eqn:E.
    + apply (f_equal (@List.length _)) in E. rewrite length_drop in E.
      cbn in E. lia.
    + cbn in Hj. destruct (ascii_dec s c) as [-> |]; [| discriminate].
      apply (Hhead c eq_refl).
      rewrite <- (take_drop j p). apply in_or_app. right. rewrite E. now left.
  - rewrite drop_app_ge in Hj by lia.
    rewrite no_occurrence in Hj by exact Hno. discriminate.
Qed.

Lemma split_on_go_nonempty sep : forall l skip tok,
  (1 <= List.length (split_on_go sep skip tok l))%nat.
Proof.
  induction l as [|c l IH]; intros skip tok; cbn [split_on_go]; [cbn; lia |].
  destruct skip; [| apply IH].
  destruct (starts_with sep (c :: l)); [cbn; lia | apply IH].
Qed.

(** The leftmost occurrence. *)
Lemma leftmost_occurrence sep : forall l,
  occurs sep l ->
  exists a b, l = a ++ sep ++ b /\
              forall i, (i < List.length a)%nat ->
                        starts_with sep (drop i l) = false.
Proof.
  induction l as [|c l IH]; intros Ho.
  - destruct Ho as (a & b & H). symmetry in H.
    apply app_eq_nil in H. destruct H as [-> H].
    apply app_eq_nil in H. destruct H as [-> ->].
    exists [], []. split; [reflexivity |]. cbn. intros; lia.
  - destruct (starts_with sep (c :: l)) eqn:E.
    + apply starts_with_true in E. destruct E as [b E].
      exists [], b. split; [exact E |]. cbn. intros; lia.
    + destruct Ho as (a & b & H). destruct a as [|x a].
      * cbn [app] in H. rewrite H, starts_with_app in E. discriminate.
      * cbn [app] in H. injection H as <- ->.
        destruct (IH ltac:(now exists a, b)) as (a' & b' & Hl & Hmin).
        exists (c :: a'), b'. split; [cbn; now rewrite <- Hl |].
        intros [|i] Hi; [exact E |]. cbn [drop]. apply Hmin. cbn in Hi. lia.
Qed.

(** One occurrence gives two pieces at least, two occurrences that do not
    overlap give three. *)
Lemma split_on_twice sep a b c tok :
  sep <> [] ->
  (3 <= List.length (split_on_go sep 0 tok (a ++ sep ++ b ++ sep ++ c)))%nat.
Proof.
  intros Hsep. set (l := a ++ sep ++ b ++ sep ++ c).
  destruct (leftmost_occurrence sep l ltac:(now exists a, (b ++ sep ++ c)))
    as (a1 & b1 & Hl & Hmin).
  assert (Hle : (List.length a1 <= List.length a)%nat).
  { destruct (Nat.le_gt_cases (List.length a1) (List.length a)) as [H | H];
      [exact H |].
    specialize (Hmin _ H). unfold l in Hmin.
    rewrite drop_app_length, starts_with_app in Hmin. discriminate. }
  assert (Hb1 : occurs sep b1).
  { assert (E : b1 = drop (List.length a1 + List.length sep) l).
    { rewrite Hl, app_assoc, <- length_app. now rewrite drop_app_length. }
    exists (drop (List.length a1 + List.length sep) (a ++ sep ++ b)), c.
    rewrite E. unfold l.
    replace (a ++ sep ++ b ++ sep ++ c) with ((a ++ sep ++ b) ++ sep ++ c)
      by (now rewrite <- !app_assoc).
    rewrite drop_app_le by (rewrite !length_app; lia). reflexivity. }
  destruct (leftmost_occurrence sep b1 Hb1) as (a2 & b2 & Hl2 & Hmin2).
  rewrite Hl. rewrite split_on_first; [| exact Hsep |].
  - rewrite Hl2. rewrite split_on_first; [| exact Hsep |].
    + cbn [List.length]. pose proof (split_on_go_nonempty sep b2 0 []). lia.
    + intros i Hi. rewrite <- Hl2. now apply Hmin2.
  - intros i Hi. rewrite <- Hl. now apply Hmin.
Qed.

(** The statements on strings. *)

Lemma split_on_one s sep : ~ contains sep s -> split_on s sep = [s].
Proof.
  intros H. unfold split_on. rewrite split_on_none.
  - cbn. now rewrite str_chars.
  - intros i. apply no_occurrence. now rewrite <- contains_occurs.
Qed.

Lemma split_on_two a b sep :
  chars sep <> [] -> clean_chars (chars sep) ->
  ~ contains sep a -> ~ contains sep b ->
  split_on (a +:+ sep +:+ b) sep = [a; b].
Proof.
  intros Hsep Hclean Ha Hb. unfold split_on. rewrite !chars_app.
  rewrite split_on_first; [| exact Hsep |].
  - rewrite split_on_none.
    + cbn. now rewrite !str_chars.
    + intros i. apply no_occurrence. now rewrite <- contains_occurs.
  - intros i Hi. apply first_occurrence; trivial.
    now rewrite <- contains_occurs.
Qed.

Lemma split_on_three a b c sep :
  chars sep <> [] ->
  (3 <= List.length (split_on (a +:+ sep +:+ b +:+ sep +:+ c) sep))%nat.
Proof.
  intros Hsep. unfold split_on. rewrite length_map, !chars_app.
  now apply split_on_twice.
Qed.

End SplitOn.

(** ** [--set-root-password] *)

Section RootPasswords.

Import JS JSText OnboardCli.

Lemma append_assoc a b c : (a +:+ b) +:+ c = a +:+ b +:+ c.
Proof. apply chars_inj. now rewrite !chars_app, app_assoc. Qed.

Lemma not_contains_empty sep : chars sep <> [] -> ~ contains sep "".
Proof.
  intros Hsep H. apply contains_occurs in H. destruct H as (a & b & H).
  symmetry in H. apply app_eq_nil in H. destruct H as [_ H].
  apply app_eq_nil in H. destruct H as [H _]. contradiction.
Qed.

Lemma clean_new : clean_chars (chars ",new:").
Proof.
  intros c [= <-] H. cbn in H.
  repeat (destruct H as [H | H]; [discriminate |]). exact H.
Qed.

Lemma clean_old : clean_chars (chars "old:").
Proof.
  intros c [= <-] H. cbn in H.
  repeat (destruct H as [H | H]; [discriminate |]). exact H.
Qed.

Lemma not_contains_new_after_old old :
  ~ contains ",new:" old -> ~ contains ",new:" ("old:" +:+ old).
Proof.
  intros H Hc. apply contains_occurs in Hc. rewrite chars_app in Hc.
  revert Hc. apply occurs_after_prefix.
  - intros c [= <-] Hin. cbn in Hin.
    repeat (destruct Hin as [Hin | Hin]; [discriminate |]). exact Hin.
  - discriminate.
  - now rewrite <- contains_occurs.
Qed.

Lemma property_insert_new (m : gmap string (option string)) old new :
  property (<["new" := Some new]> (<["old" := old]> m)) "new"
  = if truthy new then Some new else None.
Proof. unfold property. now rewrite lookup_insert_eq. Qed.

Lemma property_insert_old (m : gmap string (option string)) old new :
  property (<["new" := new]> (<["old" := old]> m)) "old"
  = match old with
    | Some s => if truthy s then Some s else None
    | None => None
    end.
Proof.
  unfold property. rewrite lookup_insert_ne by discriminate.
  now rewrite lookup_insert_eq.
Qed.

Lemma size_insert_pos (m : gmap string (option string)) k v :
  (0 <? size (<[k := v]> m))%nat = true.
Proof.
  apply Nat.ltb_lt.
  assert (size (<[k := v]> m) <> 0%nat); [| lia].
  apply map_size_non_empty_iff, insert_non_empty.
Qed.

Lemma truthy_nonempty s : s <> "" -> truthy s = true.
Proof. destruct s; [contradiction | reflexivity]. Qed.

End RootPasswords.

(** X1.  [--set-root-password old:O,new:N] sets the root password from
    [O] to [N], for every non-empty [O] and [N] in which [,new:] does not
    occur, [O] being free of [old:] as well. *)
Theorem root_password_round_trip old new m :
  ~ JS.contains ",new:" old -> ~ JS.contains ",new:" new ->
  ~ JS.contains "old:" old -> old <> "" -> new <> "" ->
  OnboardCli.root_password_step
    (OnboardCli.parseRootPasswords ("old:" +:+ old +:+ ",new:" +:+ new) m)
  = OnboardCli.SetRootPassword new old.
Proof.
  intros Ho Hn Hoo Hoe Hne. unfold OnboardCli.parseRootPasswords.
  rewrite <- append_assoc.
  rewrite (split_on_two ("old:" +:+ old) new ",new:");
    [| discriminate | apply clean_new
     | now apply not_contains_new_after_old | exact Hn].
  cbn [List.length Nat.eqb lookup list_lookup].
  change ("old:" +:+ old) with ("" +:+ "old:" +:+ old).
  rewrite (split_on_two "" old "old:");
    [| discriminate | apply clean_old
     | apply not_contains_empty; discriminate | exact Hoo].
  cbn [lookup list_lookup]. unfold OnboardCli.root_password_step.
  rewrite size_insert_pos, property_insert_old, property_insert_new.
  now rewrite !truthy_nonempty.
Qed.

Lemma root_password_round_trip_witness :
  OnboardCli.root_password_step
    (OnboardCli.parseRootPasswords
       ("old:" +:+ "default" +:+ ",new:" +:+ "s3cr3t,with:commas") ∅)
  = OnboardCli.SetRootPassword "s3cr3t,with:commas" "default".
Proof.
  apply (root_password_round_trip "default" "s3cr3t,with:commas" ∅);
    try discriminate; apply indexOf_present; reflexivity.
Defined.

(** X2.  A value of [--set-root-password] in which [,new:] does not occur,
    or occurs twice (as when the new password holds it), is dropped
    without a word: [rootPasswords] stays as it was, and with nothing in
    it the chain passes the root-password step without an error and
    without setting a password. *)
Theorem root_password_ignored value m :
  (~ JS.contains ",new:" value \/
   exists a b c, value = a +:+ ",new:" +:+ b +:+ ",new:" +:+ c) ->
  OnboardCli.parseRootPasswords value m = m /\
  OnboardCli.root_password_step (OnboardCli.parseRootPasswords value ∅)
  = OnboardCli.NoRootPassword.
Proof.
  intros H.
  assert (E : forall m', OnboardCli.parseRootPasswords value m' = m').
  { intros m'. unfold OnboardCli.parseRootPasswords.
    destruct H as [H | (a & b & c & ->)].
    - now rewrite split_on_one.
    - pose proof (split_on_three a b c ",new:" ltac:(discriminate)) as H3.
      destruct (Nat.eqb_spec
                  (List.length
                     (JSText.split_on
                        (a +:+ ",new:" +:+ b +:+ ",new:" +:+ c) ",new:")) 2);
        [lia | reflexivity]. }
  split; [apply E |]. now rewrite E.
Qed.

Lemma root_password_ignored_witness :
  OnboardCli.root_password_step
    (OnboardCli.parseRootPasswords
       ("old:a" +:+ ",new:" +:+ "b" +:+ ",new:" +:+ "c") ∅)
  = OnboardCli.NoRootPassword.
Proof.
  refine (proj2 (root_password_ignored
                   ("old:a" +:+ ",new:" +:+ "b" +:+ ",new:" +:+ "c") ∅ _)).
  right. now exists "old:a", "b", "c".
Defined.

(** X3.  A value [A,new:N] whose first part lacks the marker [old:] leaves
    the key [old] undefined, and the chain is rejected at the
    root-password step with 'Old or new password missing for root
    user.', whatever [N] is. *)
Theorem root_password_missing_old a new m :
  ~ JS.contains ",new:" a -> ~ JS.contains ",new:" new ->
  ~ JS.contains "old:" a ->
  OnboardCli.parseRootPasswords (a +:+ ",new:" +:+ new) m !! "old"
  = Some None /\
  OnboardCli.root_password_step
    (OnboardCli.parseRootPasswords (a +:+ ",new:" +:+ new) m)
  = OnboardCli.RejectMissing.
Proof.
  intros Ha Hn Ho. unfold OnboardCli.parseRootPasswords.
  rewrite (split_on_two a new ",new:");
    [| discriminate | apply clean_new | exact Ha | exact Hn].
  cbn [List.length Nat.eqb lookup list_lookup].
  rewrite split_on_one by exact Ho. cbn [lookup list_lookup].
  split.
  - rewrite lookup_insert_ne by discriminate. apply lookup_insert_eq.
  - unfold OnboardCli.root_password_step.
    now rewrite size_insert_pos, property_insert_old.
Qed.

Lemma root_password_missing_old_witness :
  OnboardCli.root_password_step
    (OnboardCli.parseRootPasswords ("default" +:+ ",new:" +:+ "s3cr3t") ∅)
  = OnboardCli.RejectMissing.
Proof.
  apply (root_password_missing_old "default" "s3cr3t" ∅);
    apply indexOf_present; reflexivity.
Defined.

(** ** The logged command line *)

Section Masking.

Import OnboardCli.

Lemma set_next_split x : forall (a : list string) i y,
  a !! i = Some y ->
  set_next i x a = take i a ++ y :: x :: drop (S (S i)) a.
Proof.
  unfold set_next. induction a as [|z a IH]; intros i y Hi; [discriminate |].
  destruct i as [|i].
  - injection Hi as ->. destruct a as [|w r]; reflexivity.
  - cbn [lookup list_lookup] in Hi. specialize (IH i y Hi).
    cbn [List.length take drop app].
    change (S (S i) <? S (List.length a))%nat with (S i <? List.length a)%nat.
    destruct (S i <? List.length a)%nat; cbn; now rewrite <- IH.
Qed.

Lemma mask_loop_go fuel : forall i (a : list string),
  (List.length (drop i a) <= fuel)%nat ->
  mask_loop fuel i a = take i a ++ mask_go false (drop i a).
Proof.
  induction fuel as [|fuel IH]; intros i a Hf.
  - cbn [mask_loop]. destruct (drop i a) eqn:E; [| cbn in Hf; lia].
    cbn. rewrite app_nil_r.
    apply (f_equal (@List.length _)) in E. rewrite length_drop in E. cbn in E.
    now rewrite take_ge by lia.
  - cbn [mask_loop]. destruct (a !! i) as [x|] eqn:Hi.
    + pose proof (lookup_lt_Some _ _ _ Hi) as Hlt.
      assert (Hdrop : drop i a = x :: drop (S i) a) by (now apply drop_S).
      rewrite Hdrop in *. cbn [List.length mask_go] in *.
      destruct (is_key x) eqn:Hk.
      * rewrite (set_next_split "*******" a i x Hi).
        set (a' := take i a ++ x :: "*******" :: drop (S (S i)) a).
        assert (Hlen : List.length (take i a) = i) by (rewrite length_take; lia).
        assert (Ht : take (S i) a' = take i a ++ [x]).
        { unfold a'. rewrite take_app_ge by lia. rewrite Hlen.
          replace (S i - i)%nat with 1%nat by lia. reflexivity. }
        assert (Hd : drop (S i) a' = "*******" :: drop (S (S i)) a).
        { unfold a'. rewrite drop_app_ge by lia. rewrite Hlen.
          replace (S i - i)%nat with 1%nat by lia. reflexivity. }
        assert (Hdd : mask_go true (drop (S i) a)
                      = "*******" :: mask_go false (drop (S (S i)) a)).
        { destruct (drop (S i) a) as [|z r] eqn:E.
          - rewrite (drop_ge a (S (S i))); [reflexivity |].
            apply (f_equal (@List.length _)) in E.
            rewrite length_drop in E. cbn in E. lia.
          - replace (S (S i)) with (S i + 1)%nat by lia.
            now rewrite <- drop_drop, E. }
        rewrite Hdd.
        destruct fuel as [|fuel'].
        -- cbn [mask_loop]. unfold a'. do 3 f_equal.
           destruct (drop (S i) a) as [|z r] eqn:E; [| cbn in Hf; lia].
           rewrite (drop_ge a (S (S i))); [reflexivity |].
           apply (f_equal (@List.length _)) in E. rewrite length_drop in E.
           cbn in E. lia.
        -- rewrite IH.
           ++ rewrite Ht, Hd, <- app_assoc. cbn [app mask_go].
              change (is_key "*******") with false. reflexivity.
           ++ rewrite Hd. cbn [List.length]. rewrite length_drop.
              rewrite length_drop in Hf. lia.
      * rewrite IH by lia.
        rewrite (take_S_r a i x Hi), <- app_assoc. reflexivity.
    + apply lookup_ge_None in Hi.
      rewrite take_ge, drop_ge by lia. cbn. now rewrite app_nil_r.
Qed.

Lemma mask_keys_go argv : mask_keys argv = mask_go false argv.
Proof.
  unfold mask_keys. rewrite mask_loop_go by (rewrite drop_0; lia).
  now rewrite take_0, drop_0.
Qed.

Lemma is_key_In x : is_key x = true <-> In x KEYS_TO_MASK.
Proof.
  unfold is_key.
  destruct (array_indexOf_spec KEYS_TO_MASK x 0 ltac:(lia))
    as [[-> Hnone] | (Hge & Hi & _)].
  - cbn. split; [discriminate |]. intros Hin.
    assert (Hin' : x ∈ KEYS_TO_MASK) by (apply list_elem_of_In; exact Hin).
    apply list_elem_of_lookup in Hin'. destruct Hin' as [j Hj].
    exfalso. apply (Hnone j); [lia | exact Hj].
  - split; [| intros _; apply negb_true_iff, Z.eqb_neq; lia].
    intros _. apply (proj1 (list_elem_of_In KEYS_TO_MASK x)).
    apply list_elem_of_lookup. eauto.
Qed.

Lemma mask_go_true_head l : mask_go true l !! 0%nat = Some "*******".
Proof. destruct l; reflexivity. Qed.

Lemma mask_go_key_followed : forall l m j k,
  mask_go m l !! j = Some k -> is_key k = true ->
  mask_go m l !! S j = Some "*******".
Proof.
  induction l as [|x l IH]; intros m j k Hj Hk.
  - destruct m; [| discriminate]. destruct j; [| discriminate].
    injection Hj as <-. discriminate.
  - cbn [mask_go] in *. destruct m.
    + destruct j as [|j]; [injection Hj as <-; discriminate |].
      exact (IH false j k Hj Hk).
    + destruct j as [|j].
      * injection Hj as <-. rewrite Hk. apply mask_go_true_head.
      * exact (IH _ j k Hj Hk).
Qed.

Lemma mask_go_original : forall l m j x,
  mask_go m l !! j = Some x -> x = "*******" \/ l !! j = Some x.
Proof.
  induction l as [|y l IH]; intros m j x Hj.
  - destruct m; [| discriminate]. destruct j; [| discriminate].
    injection Hj as <-. now left.
  - cbn [mask_go] in Hj. destruct m.
    + destruct j as [|j]; [injection Hj as <-; now left |].
      exact (IH false j x Hj).
    + destruct j as [|j]; [injection Hj as <-; now right |].
      exact (IH _ j x Hj).
Qed.

Lemma mask_go_after_plain : forall l m j y x,
  l !! j = Some y -> is_key y = false -> l !! S j = Some x ->
  mask_go m l !! S j = Some x.
Proof.
  induction l as [|z l IH]; intros m j y x Hj Hy Hx; [discriminate |].
  destruct j as [|j].
  - injection Hj as ->. destruct l as [|w l]; [discriminate |].
    injection Hx as ->. cbn [mask_go]. destruct m; [reflexivity |].
    now rewrite Hy.
  - cbn [mask_go]. destruct m; exact (IH _ j y x Hj Hy Hx).
Qed.

Lemma mask_go_length : forall l m,
  (List.length l <= List.length (mask_go m l) <= S (List.length l))%nat.
Proof.
  induction l as [|x l IH]; intros m; cbn [mask_go].
  - destruct m; cbn; lia.
  - destruct m; cbn [List.length];
      [specialize (IH false) | specialize (IH (is_key x))]; lia.
Qed.

(** An element in first place, or after an element that is not a key, is
    logged as it is. *)
Lemma mask_keys_plain argv j x :
  argv !! j = Some x ->
  (j = 0%nat \/ exists y, argv !! (j - 1)%nat = Some y /\ ~ In y KEYS_TO_MASK) ->
  mask_keys argv !! j = Some x.
Proof.
  intros Hj Hprev. rewrite mask_keys_go. destruct Hprev as [-> | (y & Hy & Hk)].
  - destruct argv; [discriminate |]. exact Hj.
  - destruct j as [|j]; [destruct argv; [discriminate | exact Hj] |].
    replace (S j - 1)%nat with j in Hy by lia.
    apply (mask_go_after_plain argv false j y x Hy); [| exact Hj].
    destruct (is_key y) eqn:E; [| reflexivity].
    apply is_key_In in E. contradiction.
Qed.

End Masking.

(** X4.  The element after a password option is masked: when
    [argv[j]] is one of [KEYS_TO_MASK], and is in first place or follows
    an element that is not one of them, the logged list has ['*******'] at
    [j + 1], also when the option is the last element, in which case the
    logged list is one longer than [argv]. *)
Theorem masked_after_key argv j k :
  argv !! j = Some k -> In k OnboardCli.KEYS_TO_MASK ->
  (j = 0%nat \/
   exists y, argv !! (j - 1)%nat = Some y /\ ~ In y OnboardCli.KEYS_TO_MASK) ->
  OnboardCli.mask_keys argv !! S j = Some "*******".
Proof.
  intros Hj Hk Hprev.
  pose proof (mask_keys_plain argv j k Hj Hprev) as H.
  rewrite mask_keys_go in *.
  apply (mask_go_key_followed argv false j k H). now apply is_key_In.
Qed.

Lemma masked_after_key_witness :
  OnboardCli.mask_keys ["node"; "onboard.js"; "--host"; "h"; "-p"] !! 5%nat
  = Some "*******".
Proof.
  apply (masked_after_key ["node"; "onboard.js"; "--host"; "h"; "-p"] 4 "-p").
  - reflexivity.
  - left. reflexivity.
  - right. exists "h". split; [reflexivity |].
    cbn. intros H. repeat (destruct H as [H | H]; [discriminate |]). exact H.
Defined.

(** X5.  What the masking loop keeps and what it changes.  In the logged
    list every element that is one of [KEYS_TO_MASK] is followed by
    ['*******']; every element is ['*******'] or the element of [argv] at
    the same index; an element of [argv] in first place, or after an
    element that is not one of [KEYS_TO_MASK], is logged as it is; and the
    logged list is as long as [argv] or one longer. *)
Theorem mask_keys_sound argv :
  (forall j k, OnboardCli.mask_keys argv !! j = Some k ->
               In k OnboardCli.KEYS_TO_MASK ->
               OnboardCli.mask_keys argv !! S j = Some "*******") /\
  (forall j x, OnboardCli.mask_keys argv !! j = Some x ->
               x = "*******" \/ argv !! j = Some x) /\
  (forall j x, argv !! j = Some x ->
               (j = 0%nat \/
                exists y, argv !! (j - 1)%nat = Some y /\
                          ~ In y OnboardCli.KEYS_TO_MASK) ->
               OnboardCli.mask_keys argv !! j = Some x) /\
  (List.length argv <= List.length (OnboardCli.mask_keys argv)
   <= S (List.length argv))%nat.
Proof.
  split; [| split; [| split]].
  - intros j k Hj Hk. rewrite mask_keys_go in *.
    apply (mask_go_key_followed argv false j k Hj). now apply is_key_In.
  - intros j x Hj. rewrite mask_keys_go in Hj. now apply mask_go_original in Hj.
  - apply mask_keys_plain.
  - rewrite mask_keys_go. apply mask_go_length.
Qed.

(** ** [--update-user] in the logged command line *)

Section UpdateUser.

Import JS JSText.

Lemma skip_while_app cls r t :
  forallb cls r = true ->
  match t with [] => True | c :: _ => cls c = false end ->
  skip_while cls (r ++ t) = t.
Proof.
  intros Hr Ht. induction r as [|x r IH].
  - cbn [app]. destruct t as [|c t]; [reflexivity |]. cbn. now rewrite Ht.
  - cbn in Hr. apply andb_true_iff in Hr. destruct Hr as [Hx Hr].
    cbn. rewrite Hx. now apply IH.
Qed.

Lemma password_at_starts l :
  starts_with (chars "password:") l = false -> password_at l = false.
Proof. intros H. unfold password_at. now rewrite H. Qed.

Lemma replace_password_skip pre : forall x,
  (forall i, (i < List.length pre)%nat ->
             starts_with (chars "password:") (drop i (pre ++ x)) = false) ->
  replace_password_chars (pre ++ x) = pre ++ replace_password_chars x.
Proof.
  induction pre as [|c pre IH]; intros x H; [reflexivity |].
  cbn [app]. cbn [replace_password_chars].
  change (password_at (c :: pre ++ x))
    with (password_at (drop 0 ((c :: pre) ++ x))).
  rewrite password_at_starts by (apply H; cbn; lia).
  fold replace_password_chars. f_equal. apply IH.
  intros i Hi. apply (H (S i)). cbn. lia.
Qed.

Lemma replace_password_none : forall l,
  (forall i, starts_with (chars "password:") (drop i l) = false) ->
  replace_password_chars l = l.
Proof.
  intros l H. rewrite <- (app_nil_r l) at 1.
  rewrite replace_password_skip.
  - cbn. apply app_nil_r.
  - intros i _. rewrite app_nil_r. apply H.
Qed.

Lemma clean_password : clean_chars (chars "password:").
Proof.
  intros c Hc. cbn in Hc. injection Hc as <-. cbn.
  intros H. repeat (destruct H as [H | H]; [discriminate |]). exact H.
Qed.

Lemma not_comma_all pw :
  ~ contains "," pw -> forallb not_comma (chars pw) = true.
Proof.
  intros H. apply not_contains_char in H. apply forallb_forall.
  intros c Hc. unfold not_comma. destruct (ascii_dec c ","%char) as [-> |];
    [contradiction | reflexivity].
Qed.

Lemma replace_password_here pw rest :
  pw <> [] -> forallb not_comma pw = true ->
  match rest with [] => True | c :: _ => not_comma c = false end ->
  replace_password_chars (chars "password:" ++ pw ++ rest)
  = chars "*******" ++ rest.
Proof.
  intros Hne Hpw Hrest. destruct pw as [|c pw]; [contradiction |].
  cbn in Hpw. apply andb_true_iff in Hpw. destruct Hpw as [Hc Hpw].
  cbn [chars list_ascii_of_string app replace_password_chars].
  unfold password_at. cbn [chars list_ascii_of_string starts_with drop].
  repeat (destruct (ascii_dec _ _) as [_ | Hn]; [| now contradiction Hn]).
  cbn [andb]. rewrite Hc. cbn [skip_while]. rewrite Hc.
  now rewrite skip_while_app.
Qed.

Lemma array_indexOf_first (a : list string) x i :
  a !! i = Some x -> (forall j, (j < i)%nat -> a !! j <> Some x) ->
  array_indexOf a x 0 = Z.of_nat i.
Proof.
  intros Hi Hmin.
  destruct (array_indexOf_spec a x 0 ltac:(lia)) as [[_ Hnone] | (Hge & Hr & Hfirst)].
  - exfalso. apply (Hnone i); [lia | exact Hi].
  - destruct (Nat.lt_trichotomy (Z.to_nat (array_indexOf a x 0)) i)
      as [Hlt | [Heq | Hgt]].
    + exfalso. exact (Hmin _ Hlt Hr).
    + lia.
    + exfalso. apply (Hfirst i); [lia | exact Hgt | exact Hi].
Qed.

Lemma mask_go_no_keys : forall l,
  (forall x, In x l -> OnboardCli.is_key x = false) ->
  OnboardCli.mask_go false l = l.
Proof.
  induction l as [|x l IH]; intros H; [reflexivity |].
  cbn [OnboardCli.mask_go]. rewrite (H x) by now left.
  f_equal. apply IH. intros y Hy. apply H. now right.
Qed.

End UpdateUser.

(** X6.  The expression [/password:([^,])+/] applied to the value of
    [--update-user]: when [password:] does not occur before, the password
    is not empty and has no comma, and what follows is nothing or begins
    with a comma, the password and its label are replaced by ['*******']
    and the rest of the value is kept. *)
Theorem update_user_password_masked pre pw rest :
  ~ JS.contains "password:" pre -> pw <> "" -> ~ JS.contains "," pw ->
  (rest = "" \/ exists r, rest = "," +:+ r) ->
  JSText.replace_password (pre +:+ "password:" +:+ pw +:+ rest)
  = pre +:+ "*******" +:+ rest.
Proof.
  intros Hpre Hne Hpw Hrest. unfold JSText.replace_password.
  apply chars_inj. rewrite chars_str, !chars_app.
  rewrite replace_password_skip.
  - f_equal. apply replace_password_here.
    + intros E. apply Hne. apply chars_inj. exact E.
    + now apply not_comma_all.
    + destruct Hrest as [-> | [r ->]]; [exact I | reflexivity].
  - intros i Hi. apply first_occurrence; [| apply clean_password | exact Hi].
    now rewrite <- contains_occurs.
Qed.

Lemma update_user_password_masked_witness :
  JSText.replace_password
    ("user:admin," +:+ "password:" +:+ "s3cr3t" +:+ ",role:admin")
  = "user:admin," +:+ "*******" +:+ ",role:admin".
Proof.
  apply (update_user_password_masked "user:admin," "s3cr3t" ",role:admin").
  - apply indexOf_present. reflexivity.
  - discriminate.
  - apply indexOf_present. reflexivity.
  - right. now exists "role:admin".
Defined.

(** X7.  Only the first [--update-user] is looked at.  On a command line
    without any of [KEYS_TO_MASK], the logged list is built without an
    error, has the rewritten value after the first [--update-user], and
    is [argv] everywhere else: the value of a second [--update-user] is
    logged as given. *)
Theorem update_user_first_only argv i v :
  (forall x, In x argv -> ~ In x OnboardCli.KEYS_TO_MASK) ->
  argv !! i = Some "--update-user" ->
  (forall j, (j < i)%nat -> argv !! j <> Some "--update-user") ->
  argv !! S i = Some v ->
  exists logged,
    OnboardCli.loggable argv = Some logged /\
    logged !! S i = Some (JSText.replace_password v) /\
    forall j, j <> S i -> logged !! j = argv !! j.
Proof.
  intros Hkeys Hi Hfirst Hv.
  exists (<[S i := JSText.replace_password v]> argv).
  split; [| split].
  - unfold OnboardCli.loggable. rewrite mask_keys_go, mask_go_no_keys.
    + unfold OnboardCli.mask_update_user.
      rewrite (array_indexOf_first argv "--update-user" i Hi Hfirst).
      destruct (Z.eqb_spec (Z.of_nat i) (-1)); [lia |]. cbn [negb].
      rewrite array_get_nat by lia. rewrite Nat2Z.id, Hv. reflexivity.
    + intros x Hx. destruct (OnboardCli.is_key x) eqn:E; [| reflexivity].
      apply is_key_In in E. exfalso. exact (Hkeys x Hx E).
  - apply list_lookup_insert_eq. now apply lookup_lt_Some in Hv.
  - intros j Hj. apply list_lookup_insert_ne. congruence.
Qed.

Lemma update_user_first_only_witness :
  exists logged,
    OnboardCli.loggable
      ["node"; "onboard.js"; "--update-user"; "user:a,password:x";
       "--update-user"; "user:b,password:y"] = Some logged /\
    logged !! 3%nat = Some (JSText.replace_password "user:a,password:x") /\
    forall j, j <> 3%nat ->
      logged !! j
      = ["node"; "onboard.js"; "--update-user"; "user:a,password:x";
         "--update-user"; "user:b,password:y"] !! j.
Proof.
  apply (update_user_first_only
           ["node"; "onboard.js"; "--update-user"; "user:a,password:x";
            "--update-user"; "user:b,password:y"] 2 "user:a,password:x").
  - intros x Hx Hk. cbn in Hx, Hk.
    repeat (destruct Hx as [<- | Hx];
            [repeat (destruct Hk as [Hk | Hk]; [discriminate |]); exact Hk |]).
    exact Hx.
  - reflexivity.
  - intros j Hj. destruct j as [|[|j]]; [discriminate | discriminate | lia].
  - reflexivity.
Defined.

(** ** The cloud provider factory *)

Section Providers.

Import JS JSText CloudProviderFactory.

Lemma skip_while_split cls : forall l,
  exists r, l = r ++ skip_while cls l /\ forallb cls r = true.
Proof.
  induction l as [|c l IH]; [now exists [] |].
  cbn [skip_while]. destruct (cls c) eqn:E; [| now exists []].
  destruct IH as (r & Hl & Hr). exists (c :: r). cbn. rewrite E, Hr.
  split; [now rewrite <- Hl | reflexivity].
Qed.

Lemma azure_at_spec x :
  azure_at x = true <->
  exists run post,
    x = chars "https://" ++ run ++ chars ".blob.core.windows.net" ++ post /\
    run <> [] /\ forallb is_lower_alnum run = true.
Proof.
  unfold azure_at. split.
  - intros H. apply andb_true_iff in H. destruct H as [Hs H].
    apply starts_with_true in Hs. destruct Hs as [b ->].
    change (drop 8 (chars "https://" ++ b)) with b in H.
    destruct b as [|c rest]; [discriminate |].
    apply andb_true_iff in H. destruct H as [Hc H].
    apply starts_with_true in H. destruct H as [post Hpost].
    destruct (skip_while_split is_lower_alnum rest) as (r & Hrest & Hr).
    exists (c :: r), post. split; [| split].
    + f_equal. cbn [app]. f_equal. rewrite Hrest at 1. now rewrite Hpost.
    + discriminate.
    + cbn. now rewrite Hc, Hr.
  - intros (run & post & -> & Hne & Hrun).
    rewrite starts_with_app. cbn [andb].
    change (drop 8 (chars "https://" ++ ?b)) with b.
    destruct run as [|c r]; [contradiction |].
    cbn in Hrun. apply andb_true_iff in Hrun. destruct Hrun as [Hc Hr].
    cbn [app]. rewrite Hc. cbn [andb].
    rewrite skip_while_app; [apply starts_with_app | exact Hr | reflexivity].
Qed.

Lemma azure_search_drop : forall l,
  azure_search l = true <-> exists i, azure_at (drop i l) = true.
Proof.
  induction l as [|c l IH].
  - cbn. split; [discriminate |]. intros [i H]. now rewrite drop_nil in H.
  - cbn [azure_search]. rewrite orb_true_iff, IH. split.
    + intros [H | [i H]]; [now exists 0%nat | now exists (S i)].
    + intros [[|i] H]; [now left | right; now exists i].
Qed.

Lemma azure_search_spec s : azure_search (chars s) = true <-> azure_matches s.
Proof.
  rewrite azure_search_drop. split.
  - intros [i H]. apply azure_at_spec in H.
    destruct H as (run & post & Hx & Hne & Hrun).
    exists (str (take i (chars s))), (str run), (str post). split; [| split].
    + apply chars_inj. rewrite !chars_app, !chars_str.
      now rewrite <- Hx, take_drop.
    + intros E. apply Hne. now rewrite <- (chars_str run), E.
    + now rewrite chars_str.
  - intros (pre & run & post & -> & Hne & Hrun).
    exists (List.length (chars pre)). rewrite !chars_app, drop_app_length.
    apply azure_at_spec. exists (chars run), (chars post).
    split; [reflexivity | split; [| exact Hrun]].
    intros E. apply Hne. apply chars_inj. exact E.
Qed.

Lemma startsWith_spec s p : startsWith s p = true <-> exists r, s = p +:+ r.
Proof.
  unfold startsWith. split.
  - intros H. apply starts_with_true in H. destruct H as [b H].
    exists (str b). apply chars_inj. now rewrite chars_app, chars_str.
  - intros [r ->]. rewrite chars_app. apply starts_with_app.
Qed.

End Providers.

(** X8.  Which provider a storage URI names.  [aws] for a URI that
    begins with [arn]; otherwise [azure] for one that has, anywhere,
    [https://] followed by one or more of [a-z0-9] and
    [.blob.core.windows.net]; otherwise [gce] for one that begins with
    [gs://]; nothing else is matched.  The expression is not anchored, so
    a [gs://] URI that holds an Azure blob address is [azure]. *)
Theorem matchProvider_spec uri p :
  CloudProviderFactory.matchProvider
    (Some {| CloudProviderFactory.storageUri := Some uri |}) = Some p <->
  (p = "aws" /\ exists r, uri = "arn" +:+ r) \/
  (p = "azure" /\ ~ (exists r, uri = "arn" +:+ r) /\ JSText.azure_matches uri) \/
  (p = "gce" /\ (exists r, uri = "gs://" +:+ r) /\ ~ JSText.azure_matches uri).
Proof.
  unfold CloudProviderFactory.matchProvider.
  cbn [CloudProviderFactory.storageUri].
  pose proof (startsWith_spec uri "arn") as Harn.
  pose proof (startsWith_spec uri "gs://") as Hgs.
  pose proof (azure_search_spec uri) as Haz.
  destruct uri as [|c u].
  - cbn [JS.truthy]. split; [discriminate |].
    intros [(_ & r & E) | [(_ & _ & pre & run & post & E & _) | (_ & (r & E) & _)]].
    + discriminate.
    + destruct pre; discriminate.
    + discriminate.
  - cbn [JS.truthy].
    destruct (JSText.startsWith (String c u) "arn") eqn:Ea.
    + split.
      * intros [= <-]. left. split; [reflexivity | now apply Harn].
      * intros [(-> & _) | [(_ & Hn & _) | (_ & (r & E) & _)]].
        -- reflexivity.
        -- exfalso. apply Hn. now apply Harn.
        -- exfalso. destruct (proj1 Harn eq_refl) as [r' E'].
           rewrite E in E'. discriminate.
    + assert (Hna : ~ exists r, String c u = "arn" +:+ r).
      { intros H. apply Harn in H. discriminate. }
      destruct (JSText.azure_search (JS.chars (String c u))) eqn:Ez.
      * split.
        -- intros [= <-]. right. left. split; [reflexivity |].
           split; [exact Hna | now apply Haz].
        -- intros [(_ & H) | [(-> & _) | (_ & _ & Hn)]].
           ++ contradiction.
           ++ reflexivity.
           ++ exfalso. apply Hn. now apply Haz.
      * assert (Hnz : ~ JSText.azure_matches (String c u)).
        { intros H. apply Haz in H. discriminate. }
        destruct (JSText.startsWith (String c u) "gs://") eqn:Eg.
        -- split.
           ++ intros [= <-]. right. right. split; [reflexivity |].
              split; [now apply Hgs | exact Hnz].
           ++ intros [(_ & H) | [(_ & _ & H) | (-> & _)]];
                [contradiction | contradiction | reflexivity].
        -- split; [discriminate |].
           intros [(_ & H) | [(_ & _ & H) | (_ & H & _)]];
             [contradiction | contradiction |].
           apply Hgs in H. discriminate.
Qed.

Lemma matchProvider_range mo p :
  CloudProviderFactory.matchProvider mo = Some p ->
  p = "aws" \/ p = "azure" \/ p = "gce".
Proof.
  unfold CloudProviderFactory.matchProvider.
  destruct mo as [[[uri|]]|]; cbn [CloudProviderFactory.storageUri];
    try discriminate.
  destruct (JS.truthy uri); [| discriminate].
  destruct (JSText.startsWith uri "arn"); [intros [= <-]; tauto |].
  destruct (JSText.azure_search (JS.chars uri)); [intros [= <-]; tauto |].
  destruct (JSText.startsWith uri "gs://"); [intros [= <-]; tauto | discriminate].
Qed.

(** X9.  How the factory chooses.  A name that is given decides alone:
    the match options change nothing.  Without a name, a matched
    provider is loaded as if it had been named.  And 'Unavailable cloud
    provider' is thrown exactly when there is neither a name nor a
    match. *)
Theorem provider_choice (Impl Options : Type)
        (require : string -> option (option Impl))
        (name : option string) (options : Options)
        (matchOptions : option CloudProviderFactory.MatchOptions) :
  (CloudProviderFactory.named name = true ->
   CloudProviderFactory.getCloudProvider Impl Options require name options matchOptions
   = CloudProviderFactory.getCloudProvider Impl Options require name options None) /\
  (CloudProviderFactory.named name = false ->
   forall p, CloudProviderFactory.matchProvider matchOptions = Some p ->
   CloudProviderFactory.getCloudProvider Impl Options require name options matchOptions
   = CloudProviderFactory.getCloudProvider Impl Options require (Some p) options None) /\
  (CloudProviderFactory.getCloudProvider Impl Options require name options matchOptions
   = CloudProviderFactory.Thrown Impl Options CloudProviderFactory.Unavailable <->
   CloudProviderFactory.named name = false /\
   CloudProviderFactory.matchProvider matchOptions = None).
Proof.
  unfold CloudProviderFactory.getCloudProvider.
  split; [| split].
  - intros Hn. rewrite Hn. cbn [negb andb].
    destruct (bool_decide (name = Some "generic")); [reflexivity |].
    destruct name as [n|]; [| cbn in Hn; discriminate]. cbn in Hn.
    unfold CloudProviderFactory.name_or. now rewrite Hn.
  - intros Hn p Hp. rewrite Hn, Hp. cbn [negb andb].
    rewrite (bool_decide_eq_true_2 (is_Some (Some p))) by eauto.
    cbn [negb andb CloudProviderFactory.matchProvider].
    destruct (matchProvider_range _ _ Hp) as [-> | [-> | ->]];
      (destruct name as [[|c n]|]; [| discriminate |]; reflexivity).
  - destruct (CloudProviderFactory.named name) eqn:Hn; cbn [negb andb].
    + split; [| intros [? _]; discriminate].
      destruct (require _) as [[i|]|]; discriminate.
    + destruct (CloudProviderFactory.matchProvider matchOptions) as [p|] eqn:Hp.
      * rewrite (bool_decide_eq_true_2 (is_Some (Some p))) by eauto.
        cbn [negb]. split; [| intros [_ ?]; discriminate].
        destruct (require _) as [[i|]|]; discriminate.
      * rewrite (bool_decide_eq_false_2 (is_Some None))
          by (intros [? ?]; discriminate).
        cbn [negb]. tauto.
Qed.

(** ** Empty arguments *)

Section EmptyTokens.

Import JS.

Lemma drop_ws_spec : forall l,
  exists p, l = p ++ drop_ws l /\ forallb is_ws p = true /\
            match drop_ws l with [] => True | c :: _ => is_ws c = false end.
Proof.
  induction l as [|c l IH].
  - now exists [].
  - cbn [drop_ws]. destruct (is_ws c) eqn:E.
    + destruct IH as (p & Hl & Hp & Hh). exists (c :: p). cbn. rewrite E, Hp.
      split; [now rewrite <- Hl | split; [reflexivity | exact Hh]].
    + exists []. cbn. now rewrite E.
Qed.

(** [trim] takes white space off both ends and nothing else. *)
Lemma trim_chars_spec l :
  exists p s, l = p ++ trim_chars l ++ s /\
              forallb is_ws p = true /\ forallb is_ws s = true /\
              (trim_chars l = [] \/
               exists c d, head (trim_chars l) = Some c /\ is_ws c = false /\
                           last (trim_chars l) = Some d /\ is_ws d = false).
Proof.
  unfold trim_chars.
  destruct (drop_ws_spec l) as (p & Hl & Hp & Hh).
  destruct (drop_ws_spec (rev (drop_ws l))) as (q & Hr & Hq & Hd).
  set (x := drop_ws l) in *. set (y := drop_ws (rev x)) in *.
  assert (Hx : x = rev y ++ rev q).
  { rewrite <- rev_app_distr, <- Hr. now rewrite rev_involutive. }
  exists p, (rev q). split; [| split; [| split]].
  - now rewrite <- Hx.
  - exact Hp.
  - rewrite forallb_forall in *. intros c Hc. apply Hq. now apply in_rev.
  - destruct y as [|d y']; [now left | right].
    cbn [rev] in *.
    assert (Hlast : last (rev y' ++ [d]) = Some d) by apply last_snoc.
    destruct (rev y' ++ [d]) as [|c t] eqn:Et.
    { destruct (rev y'); discriminate. }
    exists c, d. cbn [head]. split; [reflexivity |].
    split; [| split; [exact Hlast | exact Hd]].
    rewrite Hx in Hh. exact Hh.
Qed.

Lemma split_go_empty : forall l,
  (forall tok, tok <> [] ->
     (In [] (split_go false tok l) <->
      exists c, last l = Some c /\ is_ws c = true)) /\
  (In [] (split_go true [] l) <->
   l = [] \/ exists c, last l = Some c /\ is_ws c = true).
Proof.
  induction l as [|c l [IHa IHb]].
  - split.
    + intros tok Ht. cbn. split.
      * intros [H | []]. now contradiction Ht.
      * intros (c & H & _). discriminate.
    + cbn. split; [now left | now left].
  - assert (Hlast : (exists d, last (c :: l) = Some d /\ is_ws d = true) <->
                    (l = [] /\ is_ws c = true) \/
                    (exists d, last l = Some d /\ is_ws d = true)).
    { destruct l as [|e l].
      - cbn. split.
        + intros (d & [= <-] & H). now left.
        + intros [[_ H] | (d & H & _)]; [eauto | discriminate].
      - rewrite last_cons_cons. split.
        + now right.
        + intros [[H _] | H]; [discriminate | exact H]. }
    split.
    + intros tok Ht. cbn [split_go]. destruct (is_ws c) eqn:E.
      * cbn [In]. rewrite IHb, Hlast. split.
        -- intros [H | [H | H]]; [now contradiction Ht | now left | now right].
        -- intros [[H _] | H]; right; [now left | now right].
      * rewrite IHa by (destruct tok; discriminate). rewrite Hlast. split.
        -- now right.
        -- intros [[_ H] | H]; [congruence | exact H].
    + cbn [split_go]. destruct (is_ws c) eqn:E.
      * rewrite IHb, Hlast. split.
        -- intros [H | H]; right; [now left | now right].
        -- intros [H | [[H _] | H]]; [discriminate | now left | now right].
      * rewrite IHa by discriminate. rewrite Hlast. split.
        -- intros H. right. now right.
        -- intros [H | [[_ H] | H]]; [discriminate | congruence | exact H].
Qed.

(** Where [s.split(/\s+/)] has an empty token. *)
Lemma split_chars_empty l :
  In [] (split_chars l) <->
  l = [] \/ (exists c, head l = Some c /\ is_ws c = true) \/
  (exists c, last l = Some c /\ is_ws c = true).
Proof.
  unfold split_chars. destruct l as [|c l].
  - cbn. split; [now left | now left].
  - cbn [split_go head]. destruct (is_ws c) eqn:E.
    + split; [| intros _; now left]. intros _. right. left. eauto.
    + destruct (split_go_empty l) as [Ha _].
      rewrite (Ha ([] ++ [c])) by discriminate. split.
      * intros (d & Hd & Hw). right. right. exists d. split; [| exact Hw].
        destruct l; [discriminate | now rewrite last_cons_cons].
      * intros [H | [(d & [= <-] & H) | (d & Hd & Hw)]];
          [discriminate | congruence |].
        exists d. split; [| exact Hw].
        destruct l as [|e l]; [| now rewrite last_cons_cons in Hd].
        cbn in Hd. congruence.
Qed.

Lemma str_empty l : str l = "" <-> l = [].
Proof.
  split; [| now intros ->]. intros H.
  now rewrite <- (chars_str l), H.
Qed.

Lemma split_ws_empty s :
  In "" (split_ws s) <->
  s = "" \/ (exists c r, s = String c r /\ is_ws c = true) \/
  (exists p c, s = p +:+ String c "" /\ is_ws c = true).
Proof.
  unfold split_ws. rewrite in_map_iff.
  assert (H : (exists x, str x = "" /\ In x (split_chars (chars s))) <->
              In [] (split_chars (chars s))).
  { split.
    - intros (x & Hx & Hin). apply str_empty in Hx. now subst.
    - intros Hin. now exists []. }
  rewrite H, split_chars_empty. clear H.
  assert (H1 : chars s = [] <-> s = "").
  { split; [| now intros ->]. intros H. apply chars_inj. exact H. }
  assert (H2 : (exists c, head (chars s) = Some c /\ is_ws c = true) <->
               exists c r, s = String c r /\ is_ws c = true).
  { destruct s as [|c r]; cbn.
    - split; [intros (c & H & _) | intros (c & r & H & _)]; discriminate.
    - split.
      + intros (d & [= <-] & H). eauto.
      + intros (d & r' & [= <- <-] & H). eauto. }
  assert (H3 : (exists c, last (chars s) = Some c /\ is_ws c = true) <->
               exists p c, s = p +:+ String c "" /\ is_ws c = true).
  { split.
    - intros (c & Hc & Hw). apply last_Some in Hc. destruct Hc as [p Hp].
      exists (str p), c. split; [| exact Hw].
      apply chars_inj. now rewrite chars_app, chars_str.
    - intros (p & c & -> & Hw). exists c. split; [| exact Hw].
      rewrite chars_app. apply last_snoc. }
  now rewrite H1, H2, H3.
Qed.

Lemma filter_ws_all p :
  forallb is_ws p = true -> List.filter (fun c => negb (is_ws c)) p = [].
Proof.
  induction p as [|c p IH]; [reflexivity |]. cbn. intros H.
  apply andb_true_iff in H. destruct H as [-> H]. now apply IH.
Qed.

Lemma trim_chars_filter l :
  List.filter (fun c => negb (is_ws c)) (trim_chars l)
  = List.filter (fun c => negb (is_ws c)) l.
Proof.
  destruct (trim_chars_spec l) as (p & s & Hl & Hp & Hs & _).
  rewrite Hl at 2. rewrite !List.filter_app.
  now rewrite (filter_ws_all p Hp), (filter_ws_all s Hs), app_nil_r.
Qed.

Lemma trim_chars_blank l : forallb is_ws l = true -> trim_chars l = [].
Proof.
  intros H. destruct (trim_chars_spec l) as (p & s & Hl & _ & _ & [E | E]);
    [exact E |].
  destruct E as (c & d & Hc & Hw & _). exfalso.
  rewrite forallb_forall in H.
  assert (Hin : In c l).
  { rewrite Hl. apply in_or_app. right. apply in_or_app. left.
    destruct (trim_chars l); [discriminate |]. injection Hc as ->. now left. }
  apply H in Hin. congruence.
Qed.

Lemma trim_chars_word l :
  forallb is_ws l = false ->
  exists c d, head (trim_chars l) = Some c /\ is_ws c = false /\
              last (trim_chars l) = Some d /\ is_ws d = false.
Proof.
  intros H. destruct (trim_chars_spec l) as (p & s & Hl & Hp & Hs & [E | E]);
    [| exact E].
  exfalso. rewrite E in Hl. cbn in Hl. subst l.
  rewrite forallb_app, Hp, Hs in H. discriminate.
Qed.

End EmptyTokens.

(** X10.  The arguments [spawnScript] takes from its string.  When the
    string has a character that is not white space, the arguments added
    to the array are one or more words: none is empty, none has white
    space, and put together they are the string without its white
    space. *)
Theorem spawn_string_words arrayArgs s :
  forallb JS.is_ws (JS.chars s) = false ->
  exists toks,
    spawn_args arrayArgs (Some s)
    = match arrayArgs with Some a => a | None => [] end ++ toks /\
    toks <> [] /\
    (forall t, In t toks -> t <> "" /\ JS.has_ws t = false) /\
    concat (map JS.chars toks)
    = List.filter (fun c => negb (JS.is_ws c)) (JS.chars s).
Proof.
  intros Hs. exists (JS.split_ws (JS.trim s)).
  assert (Ht : JS.truthy s = true) by (destruct s; [discriminate | reflexivity]).
  destruct (split_ws_tokens (JS.trim s)) as [Hws Hcat].
  unfold JS.trim in Hcat at 2. rewrite chars_str, trim_chars_filter in Hcat.
  split; [| split; [| split]].
  - unfold spawn_args. now rewrite Ht.
  - intros E. rewrite E in Hcat. cbn in Hcat.
    destruct (trim_chars_word _ Hs) as (c & _ & Hc & Hw & _).
    pose proof (trim_chars_filter (JS.chars s)) as Hf. rewrite <- Hcat in Hf.
    destruct (JS.trim_chars (JS.chars s)) as [|c' r]; [discriminate |].
    injection Hc as ->. cbn in Hf. rewrite Hw in Hf. discriminate.
  - intros t Hin. split.
    + intros ->. apply split_ws_empty in Hin.
      destruct (trim_chars_word _ Hs) as (c & d & Hc & Hcw & Hd & Hdw).
      unfold JS.trim in Hin.
      destruct Hin as [E | [(c' & r & E & Hw) | (p & c' & E & Hw)]].
      * apply str_empty in E. rewrite E in Hc. discriminate.
      * apply (f_equal JS.chars) in E. rewrite chars_str in E.
        rewrite E in Hc. injection Hc as <-. congruence.
      * apply (f_equal JS.chars) in E. rewrite chars_str, chars_app in E.
        rewrite E in Hd. change (JS.chars (String c' "")) with [c'] in Hd.
        rewrite last_snoc in Hd. injection Hd as <-. congruence.
    + rewrite Forall_forall in Hws. apply Hws. now apply list_elem_of_In.
  - exact Hcat.
Qed.

Lemma spawn_string_words_witness :
  exists toks,
    spawn_args None (Some "  --host h  -u  admin ")
    = [] ++ toks /\
    toks <> [] /\
    (forall t, In t toks -> t <> "" /\ JS.has_ws t = false) /\
    concat (map JS.chars toks)
    = List.filter (fun c => negb (JS.is_ws c))
                  (JS.chars "  --host h  -u  admin ").
Proof.
  apply (spawn_string_words None "  --host h  -u  admin "). reflexivity.
Defined.

(** X11.  A string that is not empty and is white space all through
    passes the test [if (stringArgs)], is trimmed to the empty string and
    split into one empty token: the child is forked with one empty
    argument. *)
Theorem spawn_string_blank arrayArgs s :
  s <> "" -> forallb JS.is_ws (JS.chars s) = true ->
  spawn_args arrayArgs (Some s)
  = match arrayArgs with Some a => a | None => [] end ++ [""].
Proof.
  intros Hne Hs. unfold spawn_args.
  rewrite truthy_nonempty by exact Hne. f_equal.
  unfold JS.trim. rewrite trim_chars_blank by exact Hs. reflexivity.
Qed.

Lemma spawn_string_blank_witness :
  spawn_args None (Some " ") = [] ++ [""].
Proof.
  apply (spawn_string_blank None " "); [discriminate | reflexivity].
Defined.

(** X12.  The [--script] string without [--cl-args] is split without
    being trimmed (line 221): the worker gets an empty argument exactly
    when the string is empty, or begins or ends with white space. *)
Theorem script_plain_empty_argument s :
  ~ JS.contains "--cl-args" s ->
  (In "" (script_args s) <->
   s = "" \/ (exists c r, s = String c r /\ JS.is_ws c = true) \/
   (exists p c, s = p +:+ String c "" /\ JS.is_ws c = true)).
Proof.
  intros H. rewrite script_args_plain by exact H. apply split_ws_empty.
Qed.

Lemma script_plain_empty_argument_witness :
  In "" (script_args " a.sh --flag") <->
  " a.sh --flag" = "" \/
  (exists c r, " a.sh --flag" = String c r /\ JS.is_ws c = true) \/
  (exists p c, " a.sh --flag" = p +:+ String c "" /\ JS.is_ws c = true).
Proof.
  apply (script_plain_empty_argument " a.sh --flag").
  apply indexOf_present. reflexivity.
Defined.

(** ** The cost of a cohort *)

Section CohortFacts.

Import Cohort.

Lemma list_sum_cons x l : list_sum (x :: l) = (x + list_sum l)%nat.
Proof. reflexivity. Qed.

Lemma remaining_filter pid (l : list Child) c :
  NoDup (map c_pid l) -> In c l -> c_pid c = pid ->
  (list_sum (map remaining (filter (fun c => c_pid c ≠ pid) l)) + remaining c
   = list_sum (map remaining l))%nat.
Proof.
  induction l as [|d l IH]; intros Hnd Hin Hpid; [destruct Hin |].
  cbn [map] in Hnd. apply NoDup_cons in Hnd. destruct Hnd as [Hd Hnd].
  rewrite filter_cons. destruct Hin as [-> | Hin].
  - rewrite decide_False by (intros H; now apply H).
    rewrite filter_absent; [cbn [map]; rewrite list_sum_cons; lia |].
    rewrite <- Hpid. intros H. apply Hd, list_elem_of_In, H.
  - rewrite decide_True.
    + cbn [map]. rewrite !list_sum_cons. specialize (IH Hnd Hin Hpid). lia.
    + intros H. apply Hd. rewrite H, <- Hpid.
      apply list_elem_of_In, in_map, Hin.
Qed.

(** No event raises the budget: a retry turns one attempt that was left
    into a fork. *)
Lemma handle_budget e st : Inv st -> (budget (handle e st) <= budget st)%nat.
Proof.
  intros HI. destruct (alive st) eqn:Hal;
    [| rewrite (handle_dead e st Hal); lia].
  destruct e as [pid code signal | pid error |].
  - destruct (child_of pid st) as [c|] eqn:Hc;
      [| unfold handle; rewrite Hal, Hc; cbn [negb]; lia].
    pose proof (handle_exit st pid c code signal Hal Hc) as H. cbn zeta in H.
    destruct (child_of_elem _ _ _ Hc) as [Hin Hpid].
    pose proof (remaining_filter pid _ c (inv_nodup _ HI) Hin Hpid) as Hsum.
    destruct H as (_ & _ & H). unfold budget.
    destruct (retries code (c_tryNum c)) eqn:Hr.
    + destruct H as (-> & -> & _).
      cbn [map List.length]. rewrite list_sum_cons. unfold remaining at 1. cbn [c_tryNum].
      unfold retries in Hr. destruct code as [k|]; [| discriminate].
      apply andb_true_iff in Hr. destruct Hr as [_ Hr].
      apply Nat.ltb_lt in Hr. unfold remaining in Hsum at 2. lia.
    + destruct H as (-> & -> & _). lia.
  - unfold handle. rewrite Hal. cbn [negb].
    destruct (child_of pid st); [| lia]. destruct st; cbn. lia.
  - unfold handle. rewrite Hal. cbn [negb].
    destruct (0 <? rebootSubs st)%nat; [| lia]. destruct st; cbn. lia.
Qed.

Lemma run_events_budget tr : forall st,
  Inv st -> (budget (run_events tr st) <= budget st)%nat.
Proof.
  induction tr as [|e tr IH]; intros st HI; [cbn; lia |].
  cbn [run_events fold_left].
  etransitivity; [apply IH, handle_inv, HI | apply handle_budget, HI].
Qed.

Lemma first_attempts_budget st :
  FirstAttempts st -> budget st = (MAX_TRIES * List.length (forks st))%nat.
Proof.
  intros [Hc Hf]. unfold budget. rewrite Hc. revert Hf.
  generalize (forks st). intros l Hf.
  induction Hf as [|c l Hc1 Hl IH]; [reflexivity |].
  cbn [map List.length]. rewrite list_sum_cons. unfold remaining at 1.
  rewrite Hc1. unfold MAX_TRIES in *. lia.
Qed.

Lemma logger_first lv args st : FirstAttempts st -> FirstAttempts (logger lv args st).
Proof. destruct st. exact id. Qed.

Lemma spawnScript_first module arrayArgs stringArgs st :
  FirstAttempts st ->
  FirstAttempts (spawnScript module arrayArgs stringArgs None st).
Proof.
  intros [Hc Hf].
  destruct (spawnScript_fields module arrayArgs stringArgs None st)
    as (_ & Ec & _ & Ef & _).
  split; rewrite ?Ec, ?Ef; [now rewrite Hc |].
  constructor; [reflexivity | exact Hf].
Qed.

Lemma script_loop_first fuel argv : forall argIndex st,
  FirstAttempts st -> FirstAttempts (fst (script_loop fuel argv argIndex st)).
Proof.
  induction fuel as [|fuel IH]; intros argIndex st HS; cbn.
  - destruct (argIndex =? -1); exact HS.
  - destruct (argIndex =? -1); [exact HS |].
    destruct (JS.array_get argv (argIndex + 1)); [| exact HS].
    apply IH, logger_first, spawnScript_first, logger_first, HS.
Qed.

Lemma run_onboard_first argv st : FirstAttempts st -> FirstAttempts (run_onboard argv st).
Proof.
  intros HS. unfold run_onboard.
  destruct (negb _); [| now apply logger_first].
  now apply spawnScript_first, logger_first, logger_first.
Qed.

Lemma run_cluster_first argv st : FirstAttempts st -> FirstAttempts (run_cluster argv st).
Proof.
  intros HS. unfold run_cluster.
  destruct (negb _); [| now apply logger_first].
  now apply spawnScript_first, logger_first, logger_first.
Qed.

Lemma init_first : FirstAttempts init.
Proof. split; [reflexivity | constructor]. Qed.

Lemma run_first env argv : FirstAttempts (run env argv).
Proof.
  unfold run. destruct (negb _); [exact init_first |].
  destruct env as [|err]; [| exact init_first].
  set (st0 := run_cluster argv _).
  assert (HS : FirstAttempts st0).
  { apply run_cluster_first, run_onboard_first.
    apply logger_first, logger_first, init_first. }
  assert (H : FirstAttempts (fst (run_scripts argv st0))).
  { unfold run_scripts. now apply script_loop_first, logger_first. }
  destruct (run_scripts argv st0) as [st c]. cbn in H.
  destruct c; [| | exact H].
  - apply logger_first. destruct st; exact H.
  - now apply logger_first, logger_first.
Qed.

End CohortFacts.

(** X13.  What a cohort can cost.  Whatever the children do, the
    supervisor never forks more than [MAX_TRIES] times the number of
    workers that [run] started. *)
Theorem fork_bound env argv tr :
  (List.length (forks (reach env argv tr))
   <= MAX_TRIES * List.length (forks (run env argv)))%nat.
Proof.
  rewrite <- (first_attempts_budget (run env argv)) by apply run_first.
  etransitivity; [| apply (run_events_budget tr), run_inv].
  unfold reach, Cohort.budget. lia.
Qed.

(** ** A [--script] without a value *)

Section Dangling.





End Dangling.



(** ** One worker for each option *)

Section WorkerCount.

Import Cohort.

Lemma occurrences_here x (a : list string) k :
  a !! k = Some x ->
  occurrences x (drop k a) = S (occurrences x (drop (S k) a)).
Proof.
  intros H. rewrite (drop_S a x k H). unfold occurrences. cbn [List.filter].
  now rewrite String.eqb_refl.
Qed.

Lemma occurrences_skip x (a : list string) p : forall q,
  (p <= q)%nat ->
  (forall j, (p <= j)%nat -> (j < q)%nat -> a !! j <> Some x) ->
  occurrences x (drop p a) = occurrences x (drop q a).
Proof.
  induction q as [|q IH]; intros Hle Hno.
  - now replace p with 0%nat by lia.
  - destruct (Nat.eq_dec p (S q)) as [-> | Hne]; [reflexivity |].
    rewrite IH by (try lia; intros j ? ?; apply Hno; lia).
    destruct (a !! q) as [y|] eqn:Hq.
    + rewrite (drop_S a y q Hq). unfold occurrences. cbn [List.filter].
      destruct (String.eqb_spec x y) as [<- | _]; [| reflexivity].
      exfalso. apply (Hno q); [lia | lia | exact Hq].
    + apply lookup_ge_None in Hq. now rewrite !drop_ge by lia.
Qed.

Lemma occurrences_none x (a : list string) p :
  (forall j, (p <= j)%nat -> a !! j <> Some x) ->
  occurrences x (drop p a) = 0%nat.
Proof.
  intros Hno.
  destruct (Nat.le_gt_cases p (List.length a)) as [Hle | Hgt].
  - rewrite (occurrences_skip x a p (List.length a) Hle)
      by (intros j ? _; now apply Hno).
    now rewrite drop_ge by lia.
  - now rewrite drop_ge by lia.
Qed.

(** The occurrences of [x] from [p] on, told from [a.indexOf(x, p)]. *)
Lemma occurrences_indexOf x (a : list string) p :
  0 <= p ->
  occurrences x (drop (Z.to_nat p) a)
  = if JS.array_indexOf a x p =? -1 then 0%nat
    else occurrences x (drop (Z.to_nat (JS.array_indexOf a x p)) a).
Proof.
  intros Hp.
  destruct (array_indexOf_spec a x p Hp) as [[-> Hnone] | (Hge & Hj & Hmin)].
  - cbn [Z.eqb]. now apply occurrences_none.
  - destruct (Z.eqb_spec (JS.array_indexOf a x p) (-1)); [lia |].
    apply occurrences_skip; [lia | exact Hmin].
Qed.

Lemma script_loop_count fuel : forall argv argIndex st,
  (forall i, argv !! i = Some "--script" -> is_Some (argv !! S i)) ->
  (argIndex = -1 \/
   (0 <= argIndex /\ argv !! Z.to_nat argIndex = Some "--script" /\
    (List.length argv - Z.to_nat argIndex <= fuel)%nat)) ->
  List.length (forks (fst (script_loop fuel argv argIndex st)))
  = (List.length (forks st)
     + if (argIndex =? -1)%Z then 0
       else occurrences "--script" (drop (Z.to_nat argIndex) argv))%nat.
Proof.
  induction fuel as [|fuel IH]; intros argv argIndex st Hall H;
    cbn [script_loop].
  - destruct H as [-> | (H0 & Hi & Hf)]; [cbn; lia |].
    apply lookup_lt_Some in Hi. lia.
  - destruct H as [-> | (H0 & Hi & Hf)]; [cbn; lia |].
    destruct (Z.eqb_spec argIndex (-1)); [lia |].
    rewrite array_get_nat by exact H0.
    destruct (Hall _ Hi) as [s Hs]. rewrite Hs.
    rewrite IH.
    + rewrite logger_forks.
      destruct (spawnScript_fields "runScript.js" (Some (script_args s)) None None
                  (logger Debug [LStr "script args"; LArr (script_args s)] st))
        as (_ & _ & _ & -> & _).
      rewrite logger_forks. cbn [List.length].
      rewrite (occurrences_here "--script" argv _ Hi).
      pose proof (occurrences_indexOf "--script" argv (argIndex + 1) ltac:(lia)) as E.
      replace (Z.to_nat (argIndex + 1)) with (S (Z.to_nat argIndex)) in E by lia.
      rewrite E. lia.
    + exact Hall.
    + destruct (array_indexOf_spec argv "--script" (argIndex + 1) ltac:(lia))
        as [[-> _] | (Hle & Hj & _)]; [now left | right].
      split; [lia |]. split; [exact Hj |]. lia.
Qed.

Lemma array_indexOf_elem (a : list string) x :
  (JS.array_indexOf a x 0 =? -1) = negb (bool_decide (x ∈ a)).
Proof.
  destruct (array_indexOf_spec a x 0 ltac:(lia)) as [[-> Hnone] | (Hge & Hj & _)].
  - cbn [Z.eqb]. rewrite bool_decide_eq_false_2; [reflexivity |].
    intros Hin. apply list_elem_of_lookup in Hin. destruct Hin as [j Hj].
    apply (Hnone j); [lia | exact Hj].
  - destruct (Z.eqb_spec (JS.array_indexOf a x 0) (-1)); [lia |].
    rewrite bool_decide_eq_true_2; [reflexivity |].
    apply list_elem_of_lookup. eauto.
Qed.

Lemma run_onboard_count argv st :
  List.length (forks (run_onboard argv st))
  = (List.length (forks st) + Nat.b2n (bool_decide ("--onboard" ∈ argv)))%nat.
Proof.
  unfold run_onboard. rewrite array_indexOf_elem, negb_involutive.
  destruct (bool_decide _); cbn [Nat.b2n].
  - match goal with |- context [spawnScript ?m ?a ?s ?t ?x] =>
      destruct (spawnScript_fields m a s t x) as (_ & _ & _ & -> & _) end.
    rewrite !logger_forks. cbn [List.length]. lia.
  - rewrite logger_forks. lia.
Qed.

Lemma run_cluster_count argv st :
  List.length (forks (run_cluster argv st))
  = (List.length (forks st) + Nat.b2n (bool_decide ("--cluster" ∈ argv)))%nat.
Proof.
  unfold run_cluster. rewrite array_indexOf_elem, negb_involutive.
  destruct (bool_decide _); cbn [Nat.b2n].
  - match goal with |- context [spawnScript ?m ?a ?s ?t ?x] =>
      destruct (spawnScript_fields m a s t x) as (_ & _ & _ & -> & _) end.
    rewrite !logger_forks. cbn [List.length]. lia.
  - rewrite logger_forks. lia.
Qed.

Lemma run_scripts_count argv st :
  (forall i, argv !! i = Some "--script" -> is_Some (argv !! S i)) ->
  List.length (forks (fst (run_scripts argv st)))
  = (List.length (forks st) + occurrences "--script" argv)%nat.
Proof.
  intros Hall. unfold run_scripts. rewrite script_loop_count.
  - rewrite logger_forks. f_equal.
    pose proof (occurrences_indexOf "--script" argv 0 ltac:(lia)) as E.
    now rewrite drop_0 in E.
  - exact Hall.
  - destruct (array_indexOf_spec argv "--script" 0 ltac:(lia))
      as [[-> _] | (Hle & Hj & _)]; [now left | right].
    split; [exact Hle |]. split; [exact Hj |]. lia.
Qed.

End WorkerCount.

(** X15.  One worker for each option.  When every [--script] has a
    value, the number of children [run] forks is one if [--onboard] is on
    the command line, plus one if [--cluster] is, plus the number of
    times [--script] is on it, however often the first two are repeated;
    all of them are listened to when [run] returns, and the counter
    [waiting] is their number. *)
Theorem run_worker_count argv :
  JS.array_indexOf argv "--help" 0 = -1 ->
  (forall i, argv !! i = Some "--script" -> is_Some (argv !! S i)) ->
  List.length (forks (run SetupOk argv))
  = (Nat.b2n (bool_decide ("--onboard" ∈ argv))
     + Nat.b2n (bool_decide ("--cluster" ∈ argv))
     + Cohort.occurrences "--script" argv)%nat /\
  children (run SetupOk argv) = forks (run SetupOk argv) /\
  waiting (run SetupOk argv)
  = Z.of_nat (List.length (forks (run SetupOk argv))).
Proof.
  intros Hhelp Hall.
  destruct (run_first SetupOk argv) as [Hcf _].
  pose proof (inv_count _ (run_inv SetupOk argv)) as Hw.
  split; [| split; [exact Hcf | now rewrite Hw, Hcf]].
  unfold run. rewrite Hhelp. cbn [Z.eqb Pos.eqb negb].
  set (st0 := run_cluster argv _).
  pose proof (run_scripts_count argv st0 Hall) as Hn.
  pose proof (run_scripts_completes argv st0) as Hc.
  assert (H0 : List.length (forks st0)
               = (Nat.b2n (bool_decide ("--onboard" ∈ argv))
                  + Nat.b2n (bool_decide ("--cluster" ∈ argv)))%nat).
  { unfold st0. rewrite run_cluster_count, run_onboard_count.
    rewrite !logger_forks. cbn. lia. }
  destruct (run_scripts argv st0) as [st c]. cbn in Hn, Hc.
  destruct c as [|err|].
  - cbn zeta. rewrite logger_forks. destruct st; cbn in *. lia.
  - cbn zeta. rewrite !logger_forks. lia.
  - destruct Hc.
Qed.

Lemma run_worker_count_witness :
  List.length
    (forks (run SetupOk ["node"; "runScripts.js"; "--onboard"; "--host h";
                         "--script"; "a.sh"; "--script"; "b.sh --x"]))
  = 3%nat.
Proof.
  refine (proj1 (run_worker_count
                   ["node"; "runScripts.js"; "--onboard"; "--host h";
                    "--script"; "a.sh"; "--script"; "b.sh --x"] _ _)).
  - reflexivity.
  - intros i Hi.
    do 8 (destruct i as [|i]; [first [discriminate | eexists; reflexivity] |]).
    discriminate.
Defined.

(** ** The onboarding worker when its chain settles *)

(** X16.  Take an onboarding worker whose options pass the checks and
    whose [try] block ran through, with a done signal that is neither
    [ONBOARD_RUNNING] nor [CLOUD_LIBS_ERROR].  When the chain of steps
    settles, the worker asks for its process to end, whatever the
    outcome.  It sends its done signal on the way exactly in these cases:
    the chain was fulfilled and no reboot is due, or a reboot is due (also
    after an [ActiveError]) and [--no-reboot] was given.  After any other
    rejection the done signal is not sent. *)
Theorem settled_done_signal signals options cb o :
  Onboard.given (Onboard.host options) = true ->
  Onboard.forceReboot options && negb (Onboard.reboot options) = false ->
  Onboard.given (Onboard.user options)
    && negb (Onboard.given (Onboard.password options)
             || Onboard.given (Onboard.passwordUrl options)) = false ->
  Onboard.background options = false ->
  Onboard.done_signal signals options <> Onboard.ONBOARD_RUNNING signals ->
  Onboard.done_signal signals options <> Onboard.CLOUD_LIBS_ERROR signals ->
  Onboard.finished
    (Onboard.handle signals options cb (Onboard.Settled o)
       (Onboard.run signals options cb Onboard.NoThrow)) = true /\
  (In (Onboard.Send (Onboard.done_signal signals options))
      (Onboard.actions
         (Onboard.handle signals options cb (Onboard.Settled o)
            (Onboard.run signals options cb Onboard.NoThrow)))
   <-> match o with
       | Onboard.Fulfilled r =>
           r || Onboard.forceReboot options = false \/
           Onboard.reboot options = false
       | Onboard.Rejected _ (Onboard.ActiveError _) =>
           Onboard.reboot options = false
       | Onboard.Rejected _ _ => False
       end).
Proof.
  intros Hh Hf Hu Hb Hr He.
  rewrite (run_waits signals options cb Hh Hf Hu Hb).
  unfold Onboard.handle. cbn [Onboard.finished Onboard.actions Onboard.act
    Onboard.set_workflow Onboard.init existsb Onboard.is_exit orb
    Onboard.workflow].
  destruct o as [r | started err].
  - unfold Onboard.on_fulfilled, Onboard.on_done. revert Hf.
    destruct r, (Onboard.forceReboot options), (Onboard.reboot options),
      (Onboard.given (Onboard.user options)), cb; cbn; intros Hf;
      try discriminate Hf; (split; [reflexivity |]);
      intuition (try congruence).
  - unfold Onboard.on_rejected, Onboard.on_done.
    destruct err as [| m | m], started, (Onboard.reboot options),
      (Onboard.given (Onboard.user options)), cb; cbn;
      (split; [reflexivity |]); intuition (try congruence).
Qed.

Lemma settled_done_signal_witness :
  Onboard.finished
    (Onboard.handle
       {| Onboard.CLOUD_LIBS_ERROR := "CLOUD_LIBS_ERROR";
          Onboard.ONBOARD_RUNNING := "ONBOARD_RUNNING";
          Onboard.ONBOARD_DONE := "ONBOARD_DONE" |}
       {| Onboard.host := Some "h"; Onboard.user := None;
          Onboard.password := None; Onboard.passwordUrl := None;
          Onboard.forceReboot := false; Onboard.reboot := true;
          Onboard.background := false; Onboard.signal := None |}
       false
       (Onboard.Settled (Onboard.Rejected true (Onboard.Failure (Some "boom"))))
       (Onboard.run
          {| Onboard.CLOUD_LIBS_ERROR := "CLOUD_LIBS_ERROR";
             Onboard.ONBOARD_RUNNING := "ONBOARD_RUNNING";
             Onboard.ONBOARD_DONE := "ONBOARD_DONE" |}
          {| Onboard.host := Some "h"; Onboard.user := None;
             Onboard.password := None; Onboard.passwordUrl := None;
             Onboard.forceReboot := false; Onboard.reboot := true;
             Onboard.background := false; Onboard.signal := None |}
          false Onboard.NoThrow)) = true.
Proof.
  refine (proj1 (settled_done_signal
                   {| Onboard.CLOUD_LIBS_ERROR := "CLOUD_LIBS_ERROR";
                      Onboard.ONBOARD_RUNNING := "ONBOARD_RUNNING";
                      Onboard.ONBOARD_DONE := "ONBOARD_DONE" |}
                   {| Onboard.host := Some "h"; Onboard.user := None;
                      Onboard.password := None; Onboard.passwordUrl := None;
                      Onboard.forceReboot := false; Onboard.reboot := true;
                      Onboard.background := false; Onboard.signal := None |}
                   false
                   (Onboard.Rejected true (Onboard.Failure (Some "boom")))
                   _ _ _ _ _ _));
    first [reflexivity | discriminate].
Defined.

(** ** [--cl-args] without quotes *)

Section Unquoted.

Import JS.

Lemma indexOf_absent_from s n p : ~ contains n s -> indexOf s n p = -1.
Proof.
  intros H. unfold indexOf, indexOf_chars.
  rewrite find_from_none; [reflexivity |].
  intros i. rewrite drop_drop. apply no_occurrence. now rewrite <- contains_occurs.
Qed.

Lemma indexOf_first s pre n post :
  s = pre +:+ n +:+ post ->
  ~ occurs (chars n) (chars pre ++ take (List.length (chars n) - 1) (chars n)) ->
  indexOf s n 0 = Z.of_nat (String.length pre).
Proof.
  intros -> Hfirst. unfold indexOf, indexOf_chars. rewrite !chars_app.
  rewrite (clamp_nat _ 0) by lia. rewrite drop_0.
  rewrite find_from_skip.
  - rewrite find_from_here by apply starts_with_app. now rewrite chars_length.
  - intros i Hi. apply no_occurrence_before; [| exact Hi].
    now rewrite take_app_le by lia.
Qed.

Lemma substring_empty s : substring s 0 (-1) = "".
Proof.
  unfold substring, substring_chars, clamp.
  replace (Z.to_nat (Z.min (Z.max 0 0) (Z.of_nat (List.length (chars s)))))
    with 0%nat by lia.
  replace (Z.to_nat (Z.min (Z.max (-1) 0) (Z.of_nat (List.length (chars s)))))
    with 0%nat by lia.
  reflexivity.
Qed.

Lemma substring_from_0 s : substring_from s 0 = s.
Proof. apply (substring_suffix s [] s). reflexivity. Qed.

End Unquoted.

(** X17.  [--cl-args] without a quoted value.  When the [--script]
    string has [--cl-args] but no single quote, both searches for the
    quote answer [-1]: the value pushed after [--cl-args] is the empty
    string, and what is taken as the text after the value is the whole
    string, so that its tokens, [--cl-args] and those before it included,
    are pushed once more. *)
Theorem script_args_unquoted pre post :
  ~ JS.contains "--cl-args" (pre +:+ "--cl-arg") ->
  ~ JS.contains "'" (pre +:+ "--cl-args" +:+ post) ->
  script_args (pre +:+ "--cl-args" +:+ post)
  = "--cl-args" :: "" :: side_tokens pre
      ++ JS.split_ws (JS.trim (pre +:+ "--cl-args" +:+ post)).
Proof.
  intros Hfirst Hq. unfold script_args.
  rewrite (indexOf_first _ pre "--cl-args" post eq_refl).
  2:{ intros Ho. apply Hfirst, contains_occurs. rewrite chars_app. exact Ho. }
  destruct (Z.eqb_spec (Z.of_nat (String.length pre)) (-1)); [lia |].
  cbn [negb]. rewrite !(indexOf_absent_from _ "'" _ Hq).
  change (-1 + 1) with 0. rewrite substring_empty, substring_from_0.
  cbn [app]. do 2 f_equal. f_equal.
  - unfold side_tokens. rewrite Z.gtb_ltb, <- truthy_length.
    destruct (JS.truthy pre); [| reflexivity].
    rewrite (substring_prefix _ pre (JS.chars ("--cl-args" +:+ post)));
      [reflexivity | now rewrite chars_app].
  - unfold JS.length.
    rewrite (chars_length (pre +:+ "--cl-args" +:+ post)), !chars_app, !length_app.
    change (List.length (JS.chars "--cl-args")) with 9%nat.
    destruct (Z.ltb_spec (-1)
                (Z.of_nat (List.length (JS.chars pre)
                           + (9 + List.length (JS.chars post))) - 1));
      [reflexivity | lia].
Qed.

Lemma script_args_unquoted_witness :
  script_args ("a.sh " +:+ "--cl-args" +:+ " -x 1")
  = "--cl-args" :: "" :: side_tokens "a.sh "
      ++ JS.split_ws (JS.trim ("a.sh " +:+ "--cl-args" +:+ " -x 1")).
Proof.
  apply (script_args_unquoted "a.sh " " -x 1");
    apply indexOf_present; reflexivity.
Defined.
